(** * citibike_postgres: the station-pair aggregation and merge engine

    A shallow embedding of the data-processing core of
    [citibike_postgres.py]: [extract_from_trip_fact],
    [reduceByKey_most_used_routes] and [modify_most_used_routes], with the
    properties of the specification stated and proved over it.

    Modelling conventions.
    - A forward-only cursor is the list of the rows it yields; [fetchone]
      returning [None] is the end of the list, so each [while row:] loop is
      a left fold over that list.
    - Python dictionaries are stdpp finite maps ([gmap]).  A [for key in d]
      loop visits the keys in an order the language leaves unspecified; it is
      modelled by [map_to_list].  The results below do not depend on that
      order: another order yields the same mapping
      ([extract_from_trip_fact_any_order]) and the same statements up to a
      permutation of each batch ([plan_loop_permutation]).
    - Python integers are unbounded: counts are in [Z].
    - All columns of the raw trip table are VARCHAR: station ids and names
      are strings.  [route_id] is a serial primary key ([Z]), and the
      [route_id] slot of a dictionary value is [None] or such a key. *)

From stdpp Require Import gmap strings list fin_maps.
From Stdlib Require Import ZArith Lia Ascii.

Local Open Scope Z_scope.

(** ** Data model *)

(** A row of [SELECT "start station id", "start station name",
    "end station id", "end station name" FROM <table>]. *)
Record trip_row := TripRow {
  start_station_id : string;
  start_station_name : string;
  end_station_id : string;
  end_station_name : string
}.

(** The value stored under a name pair: [{'route_id': ..., 'num_trips': ...}]. *)
Record route_info := RouteInfo {
  route_id : option Z;
  num_trips : Z
}.

(** A row of [most_used_routes]. *)
Record route_row := RouteRow {
  mur_route_id : Z;
  mur_start_station_name : string;
  mur_end_station_name : string;
  mur_num_trips : Z
}.

#[global] Instance trip_row_eq_dec : EqDecision trip_row.
Proof. solve_decision. Defined.

#[global] Instance route_info_eq_dec : EqDecision route_info.
Proof. solve_decision. Defined.

#[global] Instance route_row_eq_dec : EqDecision route_row.
Proof. solve_decision. Defined.

(** Station pairs, by id and by name, are ordered pairs of strings. *)
Abbreviation pair_key := (string * string)%type.

(** ** extract_from_trip_fact *)

(** Lines 200-204: count the row under its (start id, end id) key. *)
Definition count_trip (row : trip_row) (total : gmap pair_key Z) : gmap pair_key Z :=
  let key := (start_station_id row, end_station_id row) in
  match total !! key with
  | None => <[key := 1]> total
  | Some c => <[key := c + 1]> total
  end.

(** Lines 209-215, one [if id not in names: names[id] = name]. *)
Definition record_name (id name : string) (names : gmap string string)
  : gmap string string :=
  match names !! id with
  | None => <[id := name]> names
  | Some _ => names
  end.

(** The body of the scan loop: the start station is recorded before the end
    station of the same row. *)
Definition scan_row (st : gmap pair_key Z * gmap string string) (row : trip_row)
  : gmap pair_key Z * gmap string string :=
  (count_trip row st.1,
   record_name (end_station_id row) (end_station_name row)
     (record_name (start_station_id row) (start_station_name row) st.2)).

(** Lines 199-217. *)
Definition scan_rows (rows : list trip_row) : gmap pair_key Z * gmap string string :=
  fold_left scan_row rows (∅, ∅).

(** The name pair an id pair resolves to; a missing id is Python's
    [KeyError], here [None]. *)
Definition resolve (names : gmap string string) (key : pair_key) : option pair_key :=
  a ← names !! key.1; b ← names !! key.2; Some (a, b).

(** Lines 225-229, the body of the re-keying loop for one [key] of [total]. *)
Definition rekey_entry (names : gmap string string) (total : gmap pair_key Z)
    (total_names : gmap pair_key route_info) (key : pair_key)
  : option (gmap pair_key route_info) :=
  name_key ← resolve names key;
  cnt ← total !! key;
  Some (match total_names !! name_key with
        | None => <[name_key := RouteInfo None cnt]> total_names
        | Some _ =>
            alter (λ e, RouteInfo (route_id e) (num_trips e + cnt)) name_key total_names
        end).

(** Lines 224-229. *)
Fixpoint rekey_loop (names : gmap string string) (total : gmap pair_key Z)
    (keys : list pair_key) (total_names : gmap pair_key route_info)
  : option (gmap pair_key route_info) :=
  match keys with
  | [] => Some total_names
  | key :: rest =>
      total_names' ← rekey_entry names total total_names key;
      rekey_loop names total rest total_names'
  end.

(** Lines 174-231: [None] stands for an uncaught [KeyError]. *)
Definition extract_from_trip_fact (rows : list trip_row)
  : option (gmap pair_key route_info) :=
  let '(total, names) := scan_rows rows in
  rekey_loop names total (map_to_list total).*1 ∅.

(** ** reduceByKey_most_used_routes *)

(** Lines 259-263: the two in-place assignments for one persisted row. *)
Definition reduce_row (total_names : gmap pair_key route_info) (row : route_row)
  : gmap pair_key route_info :=
  let key := (mur_start_station_name row, mur_end_station_name row) in
  match total_names !! key with
  | Some _ =>
      alter (λ e, RouteInfo (route_id e) (num_trips e + mur_num_trips row)) key
        (alter (λ e, RouteInfo (Some (mur_route_id row)) (num_trips e)) key total_names)
  | None => total_names
  end.

(** Lines 258-265: the dictionary is mutated in place; the mutated dictionary
    is returned here. *)
Definition reduceByKey_most_used_routes (total_names : gmap pair_key route_info)
    (most_used_routes : list route_row) : gmap pair_key route_info :=
  fold_left reduce_row most_used_routes total_names.

(** ** modify_most_used_routes *)

(** The two parameterised statements of the function, with their
    parameter tuples. *)
Inductive statement :=
  | INSERT (start_name end_name : string) (trips : Z)
  | UPDATE (trips : Z) (route : Z).

#[global] Instance statement_eq_dec : EqDecision statement.
Proof. solve_decision. Defined.

(** The connection as far as these functions use it: the rows of
    [most_used_routes], the next value of the [route_id] sequence, and the
    statements executed so far. *)
Record connection := Connection {
  most_used_routes : list route_row;
  route_id_seq : Z;
  executed : list statement
}.

(** [UPDATE most_used_routes SET num_trips = %s WHERE route_id = %s]. *)
Definition update_row (trips route : Z) (row : route_row) : route_row :=
  if decide (mur_route_id row = route)
  then RouteRow (mur_route_id row) (mur_start_station_name row)
         (mur_end_station_name row) trips
  else row.

Definition execute (conn : connection) (stmt : statement) : connection :=
  match stmt with
  | INSERT a b n =>
      Connection (most_used_routes conn ++ [RouteRow (route_id_seq conn) a b n])
        (route_id_seq conn + 1) (executed conn ++ [stmt])
  | UPDATE n r =>
      Connection (update_row n r <$> most_used_routes conn)
        (route_id_seq conn) (executed conn ++ [stmt])
  end.

(** [extras.execute_batch(cur, sql, array)]. *)
Definition execute_batch (conn : connection) (stmts : list statement) : connection :=
  fold_left execute stmts conn.

(** Lines 291-296: the partition loop, one key per step. *)
Definition plan_entry (arrays : list statement * list statement)
    (item : pair_key * route_info) : list statement * list statement :=
  let '(insert_array, update_array) := arrays in
  let '(key, info) := item in
  match route_id info with
  | None => (insert_array ++ [INSERT key.1 key.2 (num_trips info)], update_array)
  | Some r => (insert_array, update_array ++ [UPDATE (num_trips info) r])
  end.

Definition plan_loop (items : list (pair_key * route_info))
  : list statement * list statement :=
  fold_left plan_entry items ([], []).

(** Line 286: the list comprehension of the insert-only branch. *)
Definition insert_all (items : list (pair_key * route_info)) : list statement :=
  (λ item : pair_key * route_info,
     INSERT item.1.1 item.1.2 (num_trips item.2)) <$> items.

(** Lines 275-304.  In the insert-only branch no update batch exists; in
    the other branch the update batch is executed before the insert batch. *)
Definition modify_most_used_routes (total_names : gmap pair_key route_info)
    (only_insert : bool) (conn : connection) : connection :=
  if only_insert then
    execute_batch conn (insert_all (map_to_list total_names))
  else
    let '(insert_array, update_array) := plan_loop (map_to_list total_names) in
    execute_batch (execute_batch conn update_array) insert_array.

(** ** Sums, counts and the observations of the specification *)

Definition sum_with {A} (f : A → Z) (l : list A) : Z :=
  foldr (λ x acc, f x + acc) 0 l.

(** The sum of [f key value] over the entries of a dictionary. *)
Definition map_sum `{Countable K} {A} (f : K → A → Z) (m : gmap K A) : Z :=
  sum_with (λ item, f item.1 item.2) (map_to_list m).

(** The sum of [num_trips] over all entries of a mapping. *)
Definition total_trips (total_names : gmap pair_key route_info) : Z :=
  map_sum (λ _ info, num_trips info) total_names.

(** The count held for a key, 0 when the key is absent. *)
Definition trips_of (entry : option route_info) : Z :=
  from_option num_trips 0 entry.

(** The value [rekey_entry] leaves under a name pair: the route identity is
    kept (it is [None] for a new entry) and the count is added. *)
Definition merged (entry : option route_info) (cnt : Z) : route_info :=
  RouteInfo (entry ≫= route_id) (trips_of entry + cnt).

Definition ids (row : trip_row) : pair_key :=
  (start_station_id row, end_station_id row).

(** The number of raw trips whose ids resolve to the name pair [key]. *)
Definition trips_between (names : gmap string string) (key : pair_key)
    (rows : list trip_row) : Z :=
  sum_with (λ row, if decide (resolve names (ids row) = Some key) then 1 else 0) rows.

(** The sum of the id-pair counts whose ids resolve to the name pair [key]. *)
Definition id_pair_counts (names : gmap string string) (key : pair_key)
    (total : gmap pair_key Z) : Z :=
  map_sum (λ id_key cnt, if decide (resolve names id_key = Some key) then cnt else 0)
    total.

(** The (id, name) observations of a scan, in scan order. *)
Definition mentions (rows : list trip_row) : list (string * string) :=
  rows ≫= λ row,
    [ (start_station_id row, start_station_name row);
      (end_station_id row, end_station_name row) ].

(** The specification's policy: the name of the first observation of [id]. *)
Fixpoint first_observed_name (id : string) (obs : list (string * string))
  : option string :=
  match obs with
  | [] => None
  | (id', name) :: rest =>
      if decide (id' = id) then Some name else first_observed_name id rest
  end.

(** The name pair of a persisted row. *)
Definition route_key (row : route_row) : pair_key :=
  (mur_start_station_name row, mur_end_station_name row).

(** The persisted rows that carry the name pair [key], in scan order. *)
Definition persisted_rows_of (key : pair_key) (persisted : list route_row)
  : list route_row :=
  filter (λ row, route_key row = key) persisted.

(** The reading of the duplicate-key edge case in which the last-seen row
    wins for the identity and for the count (alone, or added to the batch
    count). *)
Definition last_seen_row_wins (total_names : gmap pair_key route_info)
    (persisted : list route_row) (key : pair_key) : Prop :=
  ∀ info row,
    total_names !! key = Some info →
    last (persisted_rows_of key persisted) = Some row →
    ∃ info',
      reduceByKey_most_used_routes total_names persisted !! key = Some info' ∧
      route_id info' = Some (mur_route_id row) ∧
      (num_trips info' = mur_num_trips row ∨
       num_trips info' = num_trips info + mur_num_trips row).

(** The one operation a key of the reconciled mapping stands for. *)
Definition operation_of (item : pair_key * route_info) : statement :=
  match route_id item.2 with
  | None => INSERT item.1.1 item.1.2 (num_trips item.2)
  | Some r => UPDATE (num_trips item.2) r
  end.

Definition insert_of (item : pair_key * route_info) : option statement :=
  match route_id item.2 with
  | None => Some (INSERT item.1.1 item.1.2 (num_trips item.2))
  | Some _ => None
  end.

Definition update_of (item : pair_key * route_info) : option statement :=
  match route_id item.2 with
  | None => None
  | Some r => Some (UPDATE (num_trips item.2) r)
  end.

(** A statement targets a persisted row when it inserts the row's name pair
    or updates the row's identity. *)
Definition targets (stmt : statement) (row : route_row) : Prop :=
  match stmt with
  | INSERT a b _ => (a, b) = route_key row
  | UPDATE _ r => r = mur_route_id row
  end.

(** ** The scenario of the specification *)

Definition scenario_rows : list trip_row :=
  [ TripRow "1" "S1" "2" "S2"; TripRow "1" "S1" "2" "S2"; TripRow "2" "S2" "1" "S1" ].

Definition scenario_total_names : gmap pair_key route_info :=
  <[("S1", "S2") := RouteInfo None 2]> (<[("S2", "S1") := RouteInfo None 1]> ∅).

(** A shorter batch, and the trip that [scenario_rows] adds to it. *)
Definition earlier_rows : list trip_row :=
  [ TripRow "1" "S1" "2" "S2"; TripRow "2" "S2" "1" "S1" ].

Definition later_row : trip_row := TripRow "1" "S1" "2" "S2".

Definition earlier_total_names : gmap pair_key route_info :=
  <[("S1", "S2") := RouteInfo None 1]> (<[("S2", "S1") := RouteInfo None 1]> ∅).

(** A batch of five trips from A to B, and persisted tables for it. *)
Definition batch_total_names : gmap pair_key route_info :=
  <[("A", "B") := RouteInfo None 5]> (<[("C", "D") := RouteInfo None 2]> ∅).

Definition persisted_once : list route_row := [ RouteRow 7 "A" "B" 10 ].

Definition persisted_twice : list route_row :=
  [ RouteRow 1 "A" "B" 10; RouteRow 2 "A" "B" 20 ].

(** The persisted state of the scenario, with a route the batch does not
    mention. *)
Definition scenario_conn : connection :=
  Connection [ RouteRow 7 "S1" "S2" 3; RouteRow 8 "S3" "S4" 9 ] 9 [].

(** ** select_from_table *)

(** Line 155: [{id_names[i]: i for i in range(len(id_names))}].  The
    comprehension stores the pairs (id_names[i], i) in index order, so a
    name that occurs again takes the later index. *)
Definition id_idx_of (id_names : list string) : gmap string nat :=
  fold_left (λ id_idx item, <[item.1 := item.2]> id_idx)
    (imap (λ i name, (name, i)) id_names) ∅.





(** ** create_trip_fact_table *)

(** [s[:-1]]: the string without its last character. *)
Fixpoint drop_last (s : string) : string :=
  match s with
  | EmptyString => EmptyString
  | String c rest =>
      match rest with
      | EmptyString => EmptyString
      | String _ _ => String c (drop_last rest)
      end
  end.

(** Lines 136-138, one column title: the title is kept as an identifier and
    a placeholder is added to the statement. *)
Definition create_table_step (st : list string * string) (column_title : string)
  : list string * string :=
  (st.1 ++ [column_title], st.2 +:+ "{} VARCHAR,").

(** Lines 133-142: the identifier array and the statement text given to
    [sql.SQL(...).format]. *)
Definition create_trip_fact_table (title_row : list string) (table_name : string)
  : list string * string :=
  let st := fold_left create_table_step title_row ([table_name], "CREATE TABLE {} (") in
  (st.1, drop_last st.2 +:+ ");").

(** The number of [{}] placeholders of a statement text. *)
Fixpoint placeholders (s : string) : nat :=
  match s with
  | EmptyString => 0
  | String c rest =>
      match rest with
      | String "}"%char rest' =>
          if Ascii.eqb c "{" then S (placeholders rest') else placeholders rest
      | _ => placeholders rest
      end
  end.

(** The text of [n] column declarations separated by commas. *)
Fixpoint column_list (n : nat) : string :=
  match n with
  | O => ""
  | S n' =>
      match n' with
      | O => "{} VARCHAR"
      | S _ => "{} VARCHAR," +:+ column_list n'
      end
  end.

(** ** main *)

(** Lines 341-369 of [main]: steps 2 and 4, on the [most_used_routes] that
    line 341 creates (empty, its serial sequence at 1).  The loads of steps 1
    and 3 are represented by the rows they leave in [trip_fact] and
    [trip_fact_stg]; [None] stands for an uncaught exception. *)
Definition main (trip_fact trip_fact_stg : list trip_row) : option connection :=
  let conn := Connection [] 1 [] in
  total_names ← extract_from_trip_fact trip_fact;
  let conn := modify_most_used_routes total_names true conn in
  total_names ← extract_from_trip_fact trip_fact_stg;
  let total_names := reduceByKey_most_used_routes total_names (most_used_routes conn) in
  Some (modify_most_used_routes total_names false conn).

(** ** The table before and after a batch *)

(** The sum of [num_trips] over the rows of the table. *)
Definition table_total (table : list route_row) : Z :=
  sum_with mur_num_trips table.

Definition set_num_trips (row : route_row) (trips : Z) : route_row :=
  RouteRow (mur_route_id row) (mur_start_station_name row)
    (mur_end_station_name row) trips.

(** The rows that the inserts of a batch append, the first one taking the
    sequence value [seq]. *)
Fixpoint rows_of_inserts (seq : Z) (stmts : list statement) : list route_row :=
  match stmts with
  | [] => []
  | INSERT a b n :: rest => RouteRow seq a b n :: rows_of_inserts (seq + 1) rest
  | UPDATE _ _ :: rest => rows_of_inserts seq rest
  end.

(** What the updates of a batch make of one row. *)
Definition apply_update (row : route_row) (stmt : statement) : route_row :=
  match stmt with
  | UPDATE n r => update_row n r row
  | INSERT _ _ _ => row
  end.

Definition apply_updates (stmts : list statement) (row : route_row) : route_row :=
  fold_left apply_update stmts row.

(** The count a batch inserts for the name pair [key]. *)
Definition inserted_count (key : pair_key) (stmts : list statement) : Z :=
  sum_with (λ stmt, match stmt with
                    | INSERT a b n => if decide ((a, b) = key) then n else 0
                    | UPDATE _ _ => 0
                    end) stmts.

(** The name pairs a batch inserts. *)
Definition inserted_keys (stmts : list statement) : list pair_key :=
  omap (λ stmt, match stmt with
                | INSERT a b _ => Some (a, b)
                | UPDATE _ _ => None
                end) stmts.

(** The row a merge batch makes of a persisted row: identity and names
    stay, and the batch count of the row's name pair is added. *)
Definition merged_row (total_names : gmap pair_key route_info) (row : route_row)
  : route_row :=
  set_num_trips row (mur_num_trips row + trips_of (total_names !! route_key row)).

(** The state in which batches leave the table: name pairs and route
    identities are not repeated, and the sequence is ahead of every
    identity in use. *)
Definition well_keyed (conn : connection) : Prop :=
  NoDup (route_key <$> most_used_routes conn) ∧
  NoDup (mur_route_id <$> most_used_routes conn) ∧
  ∀ row, row ∈ most_used_routes conn → mur_route_id row < route_id_seq conn.

(** ** Further observations *)

(** The number of raw trips with the id pair [key]. *)
Definition trips_by_ids (key : pair_key) (rows : list trip_row) : Z :=
  sum_with (λ row, if decide (ids row = key) then 1 else 0) rows.

(** The count the table holds for a name pair: the sum over its rows. *)
Definition table_count (key : pair_key) (table : list route_row) : Z :=
  sum_with mur_num_trips (persisted_rows_of key table).

(** * Properties *)

(** ** Sums over lists and dictionaries *)

Lemma sum_with_app {A} (f : A → Z) l1 l2 :
  sum_with f (l1 ++ l2) = sum_with f l1 + sum_with f l2.
Proof. induction l1 as [|x l1 IH]; simpl; [done | rewrite IH; lia]. Qed.

Lemma sum_with_perm {A} (f : A → Z) l1 l2 :
  l1 ≡ₚ l2 → sum_with f l1 = sum_with f l2.
Proof. induction 1; simpl; lia. Qed.

Lemma sum_with_ext_in {A} (f g : A → Z) l :
  (∀ x, x ∈ l → f x = g x) → sum_with f l = sum_with g l.
Proof.
  induction l as [|x l IH]; intros Hfg; simpl; [done|].
  rewrite (Hfg x), IH; [done | | left].
  intros y Hy. apply Hfg. by right.
Qed.

Lemma sum_with_fmap {A B} (f : B → Z) (g : A → B) l :
  sum_with f (g <$> l) = sum_with (f ∘ g) l.
Proof. induction l as [|x l IH]; csimpl; [done | by rewrite IH]. Qed.

Lemma sum_with_ones {A} (l : list A) : sum_with (λ _, 1) l = Z.of_nat (length l).
Proof. induction l as [|x l IH]; simpl length; simpl sum_with; lia. Qed.

Lemma sum_with_nonneg {A} (f : A → Z) l : (∀ x, 0 ≤ f x) → 0 ≤ sum_with f l.
Proof. intros Hf. induction l as [|x l IH]; simpl; [done | specialize (Hf x); lia]. Qed.

Section map_sum.
Context `{Countable K} {A : Type}.
Implicit Types (m : gmap K A) (f : K → A → Z).

Lemma map_sum_empty f : map_sum f (∅ : gmap K A) = 0.
Proof. unfold map_sum. by rewrite map_to_list_empty. Qed.

Lemma map_sum_insert_fresh f m k a :
  m !! k = None → map_sum f (<[k := a]> m) = f k a + map_sum f m.
Proof.
  intros Hk. unfold map_sum.
  by rewrite (sum_with_perm _ _ _ (map_to_list_insert m k a Hk)).
Qed.

Lemma map_sum_insert f m k a :
  map_sum f (<[k := a]> m) = map_sum f m - from_option (f k) 0 (m !! k) + f k a.
Proof.
  destruct (m !! k) as [a0|] eqn:Hk; simpl.
  - rewrite <- (insert_delete_eq m k a).
    rewrite map_sum_insert_fresh by apply lookup_delete_eq.
    unfold map_sum at 2.
    rewrite <- (sum_with_perm _ _ _ (map_to_list_delete m k a0 Hk)).
    simpl. fold (map_sum f (delete k m)). lia.
  - rewrite map_sum_insert_fresh by done. lia.
Qed.
End map_sum.

(** ** The scan loop of extract_from_trip_fact *)

Lemma scan_rows_snoc rows row :
  scan_rows (rows ++ [row]) = scan_row (scan_rows rows) row.
Proof. unfold scan_rows. by rewrite fold_left_app. Qed.

Lemma count_trip_insert row total :
  count_trip row total = <[ids row := default 0 (total !! ids row) + 1]> total.
Proof.
  unfold count_trip, ids. by destruct (total !! _).
Qed.

(** Counting one row adds the row's weight [w] to any sum that is additive
    in the counts. *)
Lemma map_sum_count_trip (f : pair_key → Z → Z) (w : pair_key → Z) row total :
  (∀ k, f k 0 = 0) → (∀ k c, f k (c + 1) = f k c + w k) →
  map_sum f (count_trip row total) = map_sum f total + w (ids row).
Proof.
  intros Hf0 Hf1. rewrite count_trip_insert, map_sum_insert, Hf1.
  destruct (total !! ids row) as [c|]; simpl; [lia | rewrite Hf0; lia].
Qed.

Lemma map_sum_scan_rows (f : pair_key → Z → Z) (w : pair_key → Z) rows :
  (∀ k, f k 0 = 0) → (∀ k c, f k (c + 1) = f k c + w k) →
  map_sum f (scan_rows rows).1 = sum_with (λ row, w (ids row)) rows.
Proof.
  intros Hf0 Hf1. induction rows as [|row rows IH] using rev_ind.
  - apply map_sum_empty.
  - rewrite scan_rows_snoc, sum_with_app. simpl.
    rewrite (map_sum_count_trip f w) by done. lia.
Qed.

Lemma scan_rows_total_pos rows key c :
  (scan_rows rows).1 !! key = Some c → 0 < c.
Proof.
  revert key c. induction rows as [|row rows IH] using rev_ind; intros key c.
  - unfold scan_rows. simpl. by rewrite lookup_empty.
  - rewrite scan_rows_snoc. simpl. rewrite count_trip_insert, lookup_insert.
    case_decide as Hk; [|by apply IH].
    intros [= <-]. destruct (_ !! ids row) as [c0|] eqn:Hc0; simpl; [|lia].
    apply IH in Hc0. lia.
Qed.

Lemma scan_rows_total_dom rows key :
  is_Some ((scan_rows rows).1 !! key) → ∃ row, row ∈ rows ∧ ids row = key.
Proof.
  induction rows as [|row rows IH] using rev_ind.
  - unfold scan_rows. simpl. rewrite lookup_empty. by intros [? ?].
  - rewrite scan_rows_snoc. simpl. rewrite count_trip_insert, lookup_insert.
    case_decide as Hk.
    + intros _. exists row. split; [|done]. apply elem_of_app. right. by left.
    + intros [row' [Hin Hids]]%IH. exists row'. split; [|done].
      apply elem_of_app. by left.
Qed.

Lemma lookup_record_name id name names j :
  record_name id name names !! j =
  match names !! j with
  | Some n => Some n
  | None => if decide (id = j) then Some name else None
  end.
Proof.
  unfold record_name. destruct (names !! id) as [n|] eqn:Hid.
  - destruct (names !! j) eqn:Hj; [done|]. case_decide; [congruence | done].
  - rewrite lookup_insert. case_decide as Hij.
    + subst j. by rewrite Hid.
    + by destruct (names !! j).
Qed.

Lemma first_observed_name_app id obs1 obs2 :
  first_observed_name id (obs1 ++ obs2) =
  match first_observed_name id obs1 with
  | Some n => Some n
  | None => first_observed_name id obs2
  end.
Proof.
  induction obs1 as [|[id' n] obs1 IH]; simpl; [done|].
  by case_decide.
Qed.

Lemma first_observed_name_is_Some id name obs :
  (id, name) ∈ obs → is_Some (first_observed_name id obs).
Proof.
  induction obs as [|[id' n] obs IH]; [by intros ?%elem_of_nil|].
  intros Hin. simpl. case_decide as Hid; [by eexists|].
  apply elem_of_cons in Hin as [[= -> ->]|Hin]; [done | by apply IH].
Qed.

Lemma mentions_snoc rows row :
  mentions (rows ++ [row]) =
  mentions rows ++ [ (start_station_id row, start_station_name row);
                     (end_station_id row, end_station_name row) ].
Proof. unfold mentions. rewrite bind_app. by csimpl. Qed.

Lemma elem_of_mentions rows row :
  row ∈ rows →
  (start_station_id row, start_station_name row) ∈ mentions rows ∧
  (end_station_id row, end_station_name row) ∈ mentions rows.
Proof.
  intros Hin. unfold mentions.
  split; apply list_elem_of_bind; exists row; (split; [|done]).
  - by left.
  - right; by left.
Qed.

(** The id→name table after the scan, id by id. *)
Lemma scan_rows_names rows id :
  (scan_rows rows).2 !! id = first_observed_name id (mentions rows).
Proof.
  induction rows as [|row rows IH] using rev_ind.
  - apply lookup_empty.
  - rewrite scan_rows_snoc, mentions_snoc, first_observed_name_app. simpl.
    rewrite !lookup_record_name, IH.
    destruct (first_observed_name id (mentions rows)); [done|].
    repeat case_decide; congruence.
Qed.

Lemma scan_rows_names_row rows row :
  row ∈ rows →
  is_Some ((scan_rows rows).2 !! start_station_id row) ∧
  is_Some ((scan_rows rows).2 !! end_station_id row).
Proof.
  intros [Hs He]%elem_of_mentions. rewrite !scan_rows_names.
  split; by eapply first_observed_name_is_Some.
Qed.

Lemma scan_rows_resolve_row rows row :
  row ∈ rows → is_Some (resolve (scan_rows rows).2 (ids row)).
Proof.
  intros [[a Ha] [b Hb]]%scan_rows_names_row.
  unfold resolve, ids. simpl. rewrite Ha. simpl. rewrite Hb. by eexists.
Qed.

(** ** The re-keying loop of extract_from_trip_fact *)

Lemma alter_lookup_insert `{Countable K} {A} (f : A → A) (m : gmap K A) k a :
  m !! k = Some a → alter f k m = <[k := f a]> m.
Proof.
  intros Hk. apply map_eq. intros j. rewrite lookup_alter, lookup_insert.
  case_decide; [subst; by rewrite Hk | done].
Qed.

(** Both branches of the loop body store [merged] under the name pair. *)
Lemma rekey_entry_spec names total tn key :
  rekey_entry names total tn key =
  name_key ← resolve names key; cnt ← total !! key;
  Some (<[name_key := merged (tn !! name_key) cnt]> tn).
Proof.
  unfold rekey_entry. destruct (resolve names key) as [nk|]; simpl; [|done].
  destruct (total !! key) as [cnt|]; simpl; [|done]. f_equal.
  destruct (tn !! nk) as [e|] eqn:He; [|done].
  by rewrite (alter_lookup_insert _ _ _ _ He).
Qed.

Lemma rekey_loop_is_Some names total keys tn :
  (∀ key, key ∈ keys → is_Some (resolve names key) ∧ is_Some (total !! key)) →
  is_Some (rekey_loop names total keys tn).
Proof.
  revert tn. induction keys as [|key keys IH]; intros tn Hkeys; simpl; [by eexists|].
  rewrite rekey_entry_spec.
  destruct (Hkeys key) as [[nk ->] [cnt ->]]; [by left|]. simpl.
  apply IH. intros key' Hin. apply Hkeys. by right.
Qed.

Lemma rekey_loop_lookup names total keys tn tn' k :
  rekey_loop names total keys tn = Some tn' →
  trips_of (tn' !! k) =
  trips_of (tn !! k) +
  sum_with (λ key, if decide (resolve names key = Some k)
                   then default 0 (total !! key) else 0) keys.
Proof.
  revert tn. induction keys as [|key keys IH]; intros tn; simpl.
  - intros [= ->]. lia.
  - rewrite rekey_entry_spec.
    destruct (resolve names key) as [nk|]; simpl; [|done].
    destruct (total !! key) as [cnt|]; simpl; [|done].
    intros ->%IH. rewrite lookup_insert.
    destruct (decide (nk = k)) as [->|Hne].
    + rewrite decide_True by done. unfold merged, trips_of. simpl. lia.
    + rewrite decide_False by congruence. lia.
Qed.

Lemma rekey_loop_total names total keys tn tn' :
  rekey_loop names total keys tn = Some tn' →
  total_trips tn' =
  total_trips tn + sum_with (λ key, default 0 (total !! key)) keys.
Proof.
  revert tn. induction keys as [|key keys IH]; intros tn; simpl.
  - intros [= ->]. lia.
  - rewrite rekey_entry_spec.
    destruct (resolve names key) as [nk|]; simpl; [|done].
    destruct (total !! key) as [cnt|]; simpl; [|done].
    intros ->%IH. unfold total_trips. rewrite map_sum_insert.
    unfold merged, trips_of. destruct (tn !! nk); simpl; lia.
Qed.

(** Every entry made by the loop has no route identity and a positive count. *)
Lemma rekey_loop_fresh names total keys tn tn' :
  (∀ key c, total !! key = Some c → 0 < c) →
  map_Forall (λ _ e, route_id e = None ∧ 0 < num_trips e) tn →
  rekey_loop names total keys tn = Some tn' →
  map_Forall (λ _ e, route_id e = None ∧ 0 < num_trips e) tn'.
Proof.
  intros Hpos. revert tn. induction keys as [|key keys IH]; intros tn Htn; simpl.
  - by intros [= <-].
  - rewrite rekey_entry_spec.
    destruct (resolve names key) as [nk|]; simpl; [|done].
    destruct (total !! key) as [cnt|] eqn:Hcnt; simpl; [|done].
    apply IH. apply map_Forall_insert_2; [|done].
    apply Hpos in Hcnt. unfold merged, trips_of.
    destruct (tn !! nk) as [e|] eqn:He; simpl.
    + destruct (Htn nk e He) as [Hr Hn]. split; [done | lia].
    + split; [done | lia].
Qed.

Lemma sum_with_keys (g : pair_key → Z → Z) (total : gmap pair_key Z) :
  sum_with (λ key, g key (default 0 (total !! key))) (map_to_list total).*1 =
  map_sum g total.
Proof.
  rewrite sum_with_fmap. apply sum_with_ext_in.
  intros [k c] Hin%elem_of_map_to_list. simpl. by rewrite Hin.
Qed.

(** ** extract_from_trip_fact as a whole *)

Lemma extract_from_trip_fact_unfold rows :
  extract_from_trip_fact rows =
  rekey_loop (scan_rows rows).2 (scan_rows rows).1
    (map_to_list (scan_rows rows).1).*1 ∅.
Proof. unfold extract_from_trip_fact. by destruct (scan_rows rows). Qed.

Lemma scan_rows_keys_resolve rows key :
  is_Some ((scan_rows rows).1 !! key) → is_Some (resolve (scan_rows rows).2 key).
Proof.
  intros (row & Hin & <-)%scan_rows_total_dom. by apply scan_rows_resolve_row.
Qed.

Lemma extract_from_trip_fact_is_Some rows : is_Some (extract_from_trip_fact rows).
Proof.
  rewrite extract_from_trip_fact_unfold. apply rekey_loop_is_Some.
  intros key ([k c] & -> & Hin%elem_of_map_to_list)%list_elem_of_fmap. simpl.
  split; [apply scan_rows_keys_resolve|]; by eexists.
Qed.

(** The count held for a name pair is the number of trips between the two
    names, and 0 exactly when the pair is absent. *)
Lemma extract_from_trip_fact_trips_of rows tn k :
  extract_from_trip_fact rows = Some tn →
  trips_of (tn !! k) = id_pair_counts (scan_rows rows).2 k (scan_rows rows).1 ∧
  trips_of (tn !! k) = trips_between (scan_rows rows).2 k rows.
Proof.
  rewrite extract_from_trip_fact_unfold. intros Htn.
  rewrite (rekey_loop_lookup _ _ _ _ _ k Htn), lookup_empty. simpl.
  set (names := (scan_rows rows).2).
  pose (f := λ (key : pair_key) (c : Z),
          if decide (resolve names key = Some k) then c else 0).
  pose (w := λ key : pair_key,
          if decide (resolve names key = Some k) then 1 else 0).
  replace (sum_with _ _) with (map_sum f (scan_rows rows).1)
    by (symmetry; apply (sum_with_keys f)).
  split; [done|]. unfold trips_between.
  rewrite (map_sum_scan_rows f w); [done | |]; unfold f, w.
  - intros key. by case_decide.
  - intros key c. case_decide; lia.
Qed.

Lemma extract_from_trip_fact_fresh rows tn k e :
  extract_from_trip_fact rows = Some tn → tn !! k = Some e →
  route_id e = None ∧ 0 < num_trips e.
Proof.
  rewrite extract_from_trip_fact_unfold. intros Htn He.
  eapply (rekey_loop_fresh _ _ _ ∅ tn); [| |exact Htn|exact He].
  - intros key c. apply scan_rows_total_pos.
  - apply map_Forall_empty.
Qed.

Lemma mentions_app rows more : mentions (rows ++ more) = mentions rows ++ mentions more.
Proof. unfold mentions. apply bind_app. Qed.

(** A name, once in the table, is the same at every later point of the scan. *)
Lemma scan_rows_names_stable rows more id name :
  (scan_rows rows).2 !! id = Some name →
  (scan_rows (rows ++ more)).2 !! id = Some name.
Proof.
  rewrite !scan_rows_names, mentions_app, first_observed_name_app.
  by intros ->.
Qed.

Lemma scan_rows_resolve_stable rows more row :
  row ∈ rows →
  resolve (scan_rows (rows ++ more)).2 (ids row) =
  resolve (scan_rows rows).2 (ids row).
Proof.
  intros [[a Ha] [b Hb]]%scan_rows_names_row. unfold resolve, ids. simpl.
  by rewrite (scan_rows_names_stable _ more _ _ Ha),
    (scan_rows_names_stable _ more _ _ Hb), Ha, Hb.
Qed.

Lemma trips_between_nonneg names k rows : 0 ≤ trips_between names k rows.
Proof. apply sum_with_nonneg. intros row. case_decide; lia. Qed.

(** The mapping returned, key by key: a name pair is present exactly when
    some trip resolves to it. *)
Lemma extract_from_trip_fact_lookup rows tn k :
  extract_from_trip_fact rows = Some tn →
  tn !! k =
  if decide (0 < trips_between (scan_rows rows).2 k rows)
  then Some (RouteInfo None (trips_between (scan_rows rows).2 k rows))
  else None.
Proof.
  intros Htn.
  destruct (extract_from_trip_fact_trips_of rows tn k Htn) as [_ Hk].
  destruct (tn !! k) as [[r n]|] eqn:He; simpl in Hk.
  - destruct (extract_from_trip_fact_fresh rows tn k _ Htn He) as [Hr Hn].
    simpl in Hr, Hn. subst r. rewrite <- Hk. by rewrite decide_True.
  - rewrite <- Hk. by rewrite decide_False by lia.
Qed.

Lemma trips_between_snoc rows row k :
  trips_between (scan_rows (rows ++ [row])).2 k (rows ++ [row]) =
  trips_between (scan_rows rows).2 k rows +
  (if decide (resolve (scan_rows (rows ++ [row])).2 (ids row) = Some k) then 1 else 0).
Proof.
  unfold trips_between. rewrite sum_with_app. simpl. f_equal; [|lia].
  apply sum_with_ext_in. intros r Hr.
  by rewrite scan_rows_resolve_stable.
Qed.

(** The order in which the keys of [total] are visited does not matter:
    any enumeration of the keys yields the mapping that
    [extract_from_trip_fact] returns. *)
Lemma rekey_loop_permutation names total keys keys' tn tn' :
  (∀ key c, total !! key = Some c → 0 < c) →
  keys ≡ₚ keys' →
  rekey_loop names total keys ∅ = Some tn →
  rekey_loop names total keys' ∅ = Some tn' →
  tn = tn'.
Proof.
  intros Hpos Hperm Htn Htn'. apply map_eq. intros k.
  pose proof (rekey_loop_lookup _ _ _ _ _ k Htn) as Hk.
  pose proof (rekey_loop_lookup _ _ _ _ _ k Htn') as Hk'.
  rewrite (sum_with_perm _ _ _ Hperm), <- Hk' in Hk.
  pose proof (rekey_loop_fresh _ _ _ _ _ Hpos (map_Forall_empty _) Htn) as Hf.
  pose proof (rekey_loop_fresh _ _ _ _ _ Hpos (map_Forall_empty _) Htn') as Hf'.
  destruct (tn !! k) as [[r n]|] eqn:He, (tn' !! k) as [[r' n']|] eqn:He';
    simpl in Hk; try done.
  - destruct (Hf k _ He) as [Hr _], (Hf' k _ He') as [Hr' _].
    simpl in Hr, Hr'. by subst.
  - destruct (Hf k _ He) as [_ Hn]. simpl in Hn. lia.
  - destruct (Hf' k _ He') as [_ Hn]. simpl in Hn. lia.
Qed.

Lemma extract_from_trip_fact_any_order rows keys :
  keys ≡ₚ (map_to_list (scan_rows rows).1).*1 →
  rekey_loop (scan_rows rows).2 (scan_rows rows).1 keys ∅ =
  extract_from_trip_fact rows.
Proof.
  intros Hperm.
  destruct (extract_from_trip_fact_is_Some rows) as [tn' Htn']. rewrite Htn'.
  rewrite extract_from_trip_fact_unfold in Htn'.
  destruct (rekey_loop_is_Some (scan_rows rows).2 (scan_rows rows).1 keys ∅)
    as [tn Htn].
  - intros key Hkey. rewrite Hperm in Hkey.
    apply list_elem_of_fmap in Hkey as ([k c] & -> & Hin%elem_of_map_to_list).
    simpl. split; [apply scan_rows_keys_resolve|]; by eexists.
  - rewrite Htn. f_equal.
    eapply rekey_loop_permutation; [|exact Hperm|exact Htn|exact Htn'].
    intros key c. apply scan_rows_total_pos.
Qed.

(** ** reduceByKey_most_used_routes *)

Lemma reduce_row_spec tn row :
  reduce_row tn row =
  match tn !! route_key row with
  | Some e =>
      <[route_key row :=
          RouteInfo (Some (mur_route_id row)) (num_trips e + mur_num_trips row)]> tn
  | None => tn
  end.
Proof.
  unfold reduce_row. fold (route_key row).
  destruct (tn !! route_key row) as [e|] eqn:He; [|done].
  rewrite (alter_lookup_insert _ _ _ _ He).
  rewrite (alter_lookup_insert _ _ _ (RouteInfo (Some (mur_route_id row)) (num_trips e)))
    by apply lookup_insert_eq.
  simpl. by rewrite insert_insert_eq.
Qed.

Lemma reduceByKey_snoc tn persisted row :
  reduceByKey_most_used_routes tn (persisted ++ [row]) =
  reduce_row (reduceByKey_most_used_routes tn persisted) row.
Proof. unfold reduceByKey_most_used_routes. by rewrite fold_left_app. Qed.

Lemma persisted_rows_of_snoc key persisted row :
  persisted_rows_of key (persisted ++ [row]) =
  persisted_rows_of key persisted ++ (if decide (route_key row = key) then [row] else []).
Proof.
  unfold persisted_rows_of. by rewrite filter_app.
Qed.

(** The reconciled mapping, key by key: the identity is that of the last
    persisted row of the key, and the counts of all its rows are added. *)
Lemma reduceByKey_lookup tn persisted key :
  reduceByKey_most_used_routes tn persisted !! key =
  (λ e, RouteInfo
          (match last (persisted_rows_of key persisted) with
           | Some row => Some (mur_route_id row)
           | None => route_id e
           end)
          (num_trips e + sum_with mur_num_trips (persisted_rows_of key persisted)))
  <$> tn !! key.
Proof.
  induction persisted as [|row persisted IH] using rev_ind.
  - unfold reduceByKey_most_used_routes. simpl.
    destruct (tn !! key) as [[r n]|]; simpl; [|done].
    by rewrite Z.add_0_r.
  - rewrite reduceByKey_snoc, reduce_row_spec, persisted_rows_of_snoc.
    destruct (decide (route_key row = key)) as [<-|Hne].
    + rewrite last_snoc, sum_with_app.
      destruct (reduceByKey_most_used_routes tn persisted !! route_key row)
        as [e'|] eqn:He'.
      * rewrite lookup_insert_eq.
        destruct (tn !! route_key row) as [e|]; simpl in *; [|done].
        injection IH as ->. simpl. by rewrite Z.add_0_r, Z.add_assoc.
      * rewrite He'. by destruct (tn !! route_key row).
    + rewrite app_nil_r.
      destruct (_ !! route_key row); [|done].
      by rewrite lookup_insert_ne.
Qed.

(** A key without persisted rows is left as it is; a key the mapping does
    not hold is not added. *)
Lemma reduceByKey_lookup_None tn persisted key :
  tn !! key = None → reduceByKey_most_used_routes tn persisted !! key = None.
Proof. intros Hk. by rewrite reduceByKey_lookup, Hk. Qed.

(** A route identity in the reconciled mapping of a fresh batch is the
    identity of a persisted row with the same name pair. *)
Lemma reduceByKey_route_id_source tn persisted key info r :
  map_Forall (λ _ e, route_id e = None) tn →
  reduceByKey_most_used_routes tn persisted !! key = Some info →
  route_id info = Some r →
  ∃ row, row ∈ persisted ∧ route_key row = key ∧ mur_route_id row = r.
Proof.
  intros Hfresh. rewrite reduceByKey_lookup.
  destruct (tn !! key) as [e|] eqn:He; simpl; [|done].
  intros [= <-]. simpl.
  destruct (last (persisted_rows_of key persisted)) as [row|] eqn:Hlast.
  - intros [= <-]. exists row.
    apply last_Some_elem_of, list_elem_of_filter in Hlast as [Hkey Hin]. done.
  - rewrite (Hfresh key e He). done.
Qed.

(** ** modify_most_used_routes *)

Lemma executed_execute_batch conn stmts :
  executed (execute_batch conn stmts) = executed conn ++ stmts.
Proof.
  unfold execute_batch. revert conn.
  induction stmts as [|stmt stmts IH]; intros conn; simpl.
  - by rewrite app_nil_r.
  - rewrite IH. destruct stmt; simpl; by rewrite <- app_assoc.
Qed.

Lemma plan_loop_snoc items item :
  plan_loop (items ++ [item]) = plan_entry (plan_loop items) item.
Proof. unfold plan_loop. by rewrite fold_left_app. Qed.

(** The two arrays built by the partition loop. *)
Lemma plan_loop_spec items :
  plan_loop items = (omap insert_of items, omap update_of items).
Proof.
  induction items as [|[key info] items IH] using rev_ind; [done|].
  rewrite plan_loop_snoc, IH, !omap_app. unfold plan_entry, insert_of, update_of.
  simpl. destruct (route_id info); simpl; by rewrite app_nil_r.
Qed.

Lemma plan_arrays_permutation items :
  omap insert_of items ++ omap update_of items ≡ₚ operation_of <$> items.
Proof.
  induction items as [|[key info] items IH]; csimpl; [done|].
  unfold insert_of, update_of, operation_of. simpl.
  destruct (route_id info) as [r|]; simpl.
  - rewrite <- IH. by rewrite Permutation_middle.
  - by rewrite <- IH.
Qed.

(** Visiting the keys of the mapping in another order permutes each of the
    two arrays and nothing else. *)
Lemma plan_loop_permutation items items' :
  items ≡ₚ items' →
  (plan_loop items).1 ≡ₚ (plan_loop items').1 ∧
  (plan_loop items).2 ≡ₚ (plan_loop items').2.
Proof. intros Hperm. rewrite !plan_loop_spec. simpl. by rewrite Hperm. Qed.

Lemma update_row_other trips route row :
  mur_route_id row ≠ route → update_row trips route row = row.
Proof. intros Hne. unfold update_row. by rewrite decide_False. Qed.

Lemma execute_keeps_row conn stmt row :
  (∀ n r, stmt = UPDATE n r → r ≠ mur_route_id row) →
  row ∈ most_used_routes conn → row ∈ most_used_routes (execute conn stmt).
Proof.
  intros Hstmt Hrow. destruct stmt as [a b n|n r]; simpl.
  - apply elem_of_app. by left.
  - apply list_elem_of_fmap. exists row. split; [|done].
    symmetry. apply update_row_other. intros Heq. by apply (Hstmt n r).
Qed.

Lemma execute_batch_keeps_row conn stmts row :
  (∀ n r, UPDATE n r ∈ stmts → r ≠ mur_route_id row) →
  row ∈ most_used_routes conn → row ∈ most_used_routes (execute_batch conn stmts).
Proof.
  unfold execute_batch. revert conn.
  induction stmts as [|stmt stmts IH]; intros conn Hstmts Hrow; simpl; [done|].
  apply IH.
  - intros n r Hin. apply (Hstmts n). by right.
  - apply execute_keeps_row; [|done]. intros n r ->. apply (Hstmts n). by left.
Qed.

Lemma NoDup_fmap_elem_inj {A B} (f : A → B) (l : list A) x y :
  NoDup (f <$> l) → x ∈ l → y ∈ l → f x = f y → x = y.
Proof.
  induction l as [|a l IH]; csimpl; [by intros _ ?%elem_of_nil|].
  intros [Ha Hl]%NoDup_cons [->|Hx]%elem_of_cons [->|Hy]%elem_of_cons Hf.
  - done.
  - exfalso. apply Ha. rewrite Hf. by apply list_elem_of_fmap_2.
  - exfalso. apply Ha. rewrite <- Hf. by apply list_elem_of_fmap_2.
  - by apply IH.
Qed.

(** * The claims *)

(** C1.  Count conservation: for every raw trip table,
    [extract_from_trip_fact] returns a mapping, and the sum of [num_trips]
    over all its entries is the number of rows of the table. *)
Theorem extract_count_conservation (rows : list trip_row) :
  ∃ total_names,
    extract_from_trip_fact rows = Some total_names ∧
    total_trips total_names = Z.of_nat (length rows).
Proof.
  destruct (extract_from_trip_fact_is_Some rows) as [tn Htn].
  exists tn. split; [done|].
  rewrite extract_from_trip_fact_unfold in Htn.
  rewrite (rekey_loop_total _ _ _ _ _ Htn).
  unfold total_trips at 1. rewrite map_sum_empty.
  replace (sum_with _ _) with (map_sum (λ (_ : pair_key) (c : Z), c) (scan_rows rows).1)
    by (symmetry; apply (sum_with_keys (λ _ c, c))).
  rewrite (map_sum_scan_rows _ (λ _, 1)); [|done|done].
  rewrite sum_with_ones. lia.
Qed.

(** C4.  Every name-pair key of the mapping returned by
    [extract_from_trip_fact] is created with [route_id = None], and its
    [num_trips] is the sum of the id-pair counts whose ids resolve to that
    name pair, which is the number of raw trips whose resolved start and end
    names are that key. *)
Theorem extract_counts_by_name_pair (rows : list trip_row)
    (total_names : gmap pair_key route_info) (key : pair_key) (info : route_info) :
  extract_from_trip_fact rows = Some total_names →
  total_names !! key = Some info →
  route_id info = None ∧
  num_trips info = id_pair_counts (scan_rows rows).2 key (scan_rows rows).1 ∧
  num_trips info = trips_between (scan_rows rows).2 key rows.
Proof.
  intros Htn Hinfo.
  destruct (extract_from_trip_fact_fresh rows total_names key info Htn Hinfo) as [Hr _].
  destruct (extract_from_trip_fact_trips_of rows total_names key Htn) as [Hc Hb].
  rewrite Hinfo in Hc, Hb. by simpl in Hc, Hb.
Qed.

Lemma extract_counts_by_name_pair_witness :
  route_id (RouteInfo None 2) = None ∧
  num_trips (RouteInfo None 2) =
    id_pair_counts (scan_rows scenario_rows).2 ("S1", "S2") (scan_rows scenario_rows).1 ∧
  num_trips (RouteInfo None 2) =
    trips_between (scan_rows scenario_rows).2 ("S1", "S2") scenario_rows.
Proof.
  apply (extract_counts_by_name_pair scenario_rows scenario_total_names).
  - vm_compute. reflexivity.
  - vm_compute. reflexivity.
Defined.

(** C5.  During the scan the id→name table maps every id to the name of
    the first observation of that id in scan order (within a row the start
    station is observed before the end station), and a name in the table is
    retained for the remainder of the scan: names observed later for the same
    id are ignored. *)
Theorem first_name_is_retained (rows : list trip_row) (id : string) :
  (scan_rows rows).2 !! id = first_observed_name id (mentions rows) ∧
  ∀ more name,
    (scan_rows rows).2 !! id = Some name →
    (scan_rows (rows ++ more)).2 !! id = Some name.
Proof.
  split; [apply scan_rows_names|].
  intros more name. apply scan_rows_names_stable.
Qed.

(** C9.  Station-pair keys are ordered.  When a trip whose ids resolve to
    the names (A, B), A ≠ B, is added to a batch, the entry of (A, B) counts
    one trip more and the entry of (B, A) is unchanged: the trip is not
    folded into the reverse pair. *)
Theorem pair_order_is_kept (rows : list trip_row) (row : trip_row)
    (total_names total_names' : gmap pair_key route_info) (a b : string) :
  extract_from_trip_fact rows = Some total_names →
  extract_from_trip_fact (rows ++ [row]) = Some total_names' →
  resolve (scan_rows (rows ++ [row])).2 (ids row) = Some (a, b) →
  a ≠ b →
  total_names' !! (b, a) = total_names !! (b, a) ∧
  total_names' !! (a, b) = Some (RouteInfo None (trips_of (total_names !! (a, b)) + 1)).
Proof.
  intros Htn Htn' Hrow Hab.
  rewrite (extract_from_trip_fact_lookup _ _ (b, a) Htn').
  rewrite (extract_from_trip_fact_lookup _ _ (a, b) Htn').
  rewrite (extract_from_trip_fact_lookup _ _ (b, a) Htn).
  destruct (extract_from_trip_fact_trips_of rows _ (a, b) Htn) as [_ ->].
  rewrite !trips_between_snoc, Hrow.
  destruct (decide (Some (a, b) = Some (b, a))) as [?|_]; [congruence|].
  destruct (decide (Some (a, b) = Some (a, b))) as [_|?]; [|done].
  rewrite Z.add_0_r. split; [done|].
  pose proof (trips_between_nonneg (scan_rows rows).2 (a, b) rows).
  by rewrite decide_True by lia.
Qed.

Lemma pair_order_is_kept_witness :
  scenario_total_names !! ("S2", "S1") = earlier_total_names !! ("S2", "S1") ∧
  scenario_total_names !! ("S1", "S2") =
    Some (RouteInfo None (trips_of (earlier_total_names !! ("S1", "S2")) + 1)).
Proof.
  apply (pair_order_is_kept earlier_rows later_row).
  - vm_compute. reflexivity.
  - vm_compute. reflexivity.
  - vm_compute. reflexivity.
  - discriminate.
Defined.

(** C10.  At the start of the re-keying loop every station id occurring in
    a key of the id-pair count dictionary has an entry in the id→name
    dictionary, so neither lookup of the loop fails and the function
    returns a mapping. *)
Theorem rekey_lookups_never_fail (rows : list trip_row) :
  (∀ key, key ∈ dom (scan_rows rows).1 →
     key.1 ∈ dom (scan_rows rows).2 ∧ key.2 ∈ dom (scan_rows rows).2) ∧
  (∀ key, key ∈ (map_to_list (scan_rows rows).1).*1 →
     is_Some (resolve (scan_rows rows).2 key)) ∧
  is_Some (extract_from_trip_fact rows).
Proof.
  split; [|split].
  - intros key (row & Hin & <-)%elem_of_dom%scan_rows_total_dom.
    rewrite !elem_of_dom. by apply scan_rows_names_row.
  - intros key ([k c] & -> & Hin%elem_of_map_to_list)%list_elem_of_fmap.
    apply scan_rows_keys_resolve. by eexists.
  - apply extract_from_trip_fact_is_Some.
Qed.

(** C2.  Reconciliation is additive.  For a key of the mapping with batch
    count N: if the persisted table holds the key in one row, with count P
    and route identity R, the reconciled entry has [num_trips = N + P] and
    [route_id = R]; if the persisted table does not hold the key, the entry
    is left as it was, so a [route_id] of [None] stays [None]. *)
Theorem reconcile_adds_persisted_count (total_names : gmap pair_key route_info)
    (persisted : list route_row) (key : pair_key) (info : route_info) :
  total_names !! key = Some info →
  (∀ row, persisted_rows_of key persisted = [row] →
     reduceByKey_most_used_routes total_names persisted !! key =
     Some (RouteInfo (Some (mur_route_id row)) (num_trips info + mur_num_trips row))) ∧
  (persisted_rows_of key persisted = [] →
     reduceByKey_most_used_routes total_names persisted !! key = Some info).
Proof.
  intros Hinfo. rewrite reduceByKey_lookup, Hinfo. simpl.
  split; [intros row|]; intros ->; simpl.
  - by rewrite Z.add_0_r.
  - destruct info as [r n]. simpl. by rewrite Z.add_0_r.
Qed.

Lemma reconcile_adds_persisted_count_witness :
  reduceByKey_most_used_routes batch_total_names persisted_once !! ("A", "B") =
    Some (RouteInfo (Some 7) 15) ∧
  reduceByKey_most_used_routes batch_total_names persisted_once !! ("C", "D") =
    Some (RouteInfo None 2).
Proof.
  assert (Hab : batch_total_names !! ("A", "B") = Some (RouteInfo None 5))
    by (vm_compute; reflexivity).
  assert (Hcd : batch_total_names !! ("C", "D") = Some (RouteInfo None 2))
    by (vm_compute; reflexivity).
  split.
  - apply (proj1 (reconcile_adds_persisted_count _ persisted_once _ _ Hab)
             (RouteRow 7 "A" "B" 10)).
    vm_compute. reflexivity.
  - apply (proj2 (reconcile_adds_persisted_count _ persisted_once _ _ Hcd)).
    vm_compute. reflexivity.
Defined.

(** C8, as stated, fails: with a batch count of 5 and the persisted rows
    (1, A, B, 10) and (2, A, B, 20), the entry of (A, B) ends with identity 2
    and count 35, which is neither the last-seen count 20 nor 5 + 20. *)
Lemma last_seen_count_does_not_win :
  ¬ last_seen_row_wins batch_total_names persisted_twice ("A", "B").
Proof.
  intros Hwins.
  destruct (Hwins (RouteInfo None 5) (RouteRow 2 "A" "B" 20))
    as (info' & Hlookup & _ & Hcount).
  - vm_compute. reflexivity.
  - vm_compute. reflexivity.
  - assert (Hcode :
      reduceByKey_most_used_routes batch_total_names persisted_twice !! ("A", "B") =
      Some (RouteInfo (Some 2) 35)) by (vm_compute; reflexivity).
    rewrite Hcode in Hlookup. injection Hlookup as <-. simpl in Hcount.
    destruct Hcount; discriminate.
Qed.

(** C8, amended.  If a key of the mapping appears in one or more rows of
    the persisted table, then after the reconciliation scan its entry holds
    the identity of the last-seen row, and its count is the batch count plus
    the counts of all the persisted rows of the key. *)
Theorem last_seen_identity_summed_counts (total_names : gmap pair_key route_info)
    (persisted : list route_row) (key : pair_key) (info : route_info)
    (row : route_row) :
  total_names !! key = Some info →
  last (persisted_rows_of key persisted) = Some row →
  reduceByKey_most_used_routes total_names persisted !! key =
  Some (RouteInfo (Some (mur_route_id row))
          (num_trips info + sum_with mur_num_trips (persisted_rows_of key persisted))).
Proof.
  intros Hinfo Hlast. by rewrite reduceByKey_lookup, Hinfo, Hlast.
Qed.

Lemma last_seen_identity_summed_counts_witness :
  reduceByKey_most_used_routes batch_total_names persisted_twice !! ("A", "B") =
  Some (RouteInfo (Some 2) 35).
Proof.
  apply (last_seen_identity_summed_counts batch_total_names persisted_twice
           ("A", "B") (RouteInfo None 5) (RouteRow 2 "A" "B" 20)).
  - vm_compute. reflexivity.
  - vm_compute. reflexivity.
Defined.

(** C3.  With [only_insert] false the statements executed are an update
    batch followed by an insert batch that together hold one operation per
    key of the mapping: an insert of (start name, end name, num_trips) for
    each key whose [route_id] is [None], an update of (num_trips, route_id)
    for each key whose [route_id] is set.  An update changes the rows with
    that route identity, whatever their station names, and no other row. *)
Theorem planner_partitions_keys (total_names : gmap pair_key route_info)
    (conn : connection) :
  ∃ insert_array update_array,
    executed (modify_most_used_routes total_names false conn) =
      executed conn ++ update_array ++ insert_array ∧
    insert_array ++ update_array ≡ₚ operation_of <$> map_to_list total_names ∧
    (length insert_array + length update_array)%nat = size total_names ∧
    (∀ stmt, stmt ∈ insert_array ↔
       ∃ key info, total_names !! key = Some info ∧ route_id info = None ∧
                   stmt = INSERT key.1 key.2 (num_trips info)) ∧
    (∀ stmt, stmt ∈ update_array ↔
       ∃ key info r, total_names !! key = Some info ∧ route_id info = Some r ∧
                     stmt = UPDATE (num_trips info) r) ∧
    (∀ c n r row, row ∈ most_used_routes c →
       if decide (mur_route_id row = r)
       then RouteRow r (mur_start_station_name row) (mur_end_station_name row) n
              ∈ most_used_routes (execute c (UPDATE n r))
       else row ∈ most_used_routes (execute c (UPDATE n r))).
Proof.
  exists (omap insert_of (map_to_list total_names)),
         (omap update_of (map_to_list total_names)).
  split; [|split; [|split; [|split; [|split]]]].
  - unfold modify_most_used_routes. rewrite plan_loop_spec.
    by rewrite !executed_execute_batch, <- app_assoc.
  - apply plan_arrays_permutation.
  - rewrite <- length_app, plan_arrays_permutation, length_fmap.
    apply length_map_to_list.
  - intros stmt. rewrite list_elem_of_omap. split.
    + intros ([key info] & Hin%elem_of_map_to_list & Hstmt).
      unfold insert_of in Hstmt. simpl in Hstmt.
      destruct (route_id info) eqn:Hr; [done|]. injection Hstmt as <-.
      by exists key, info.
    + intros (key & info & Hin & Hr & ->). exists (key, info).
      split; [by apply elem_of_map_to_list|].
      unfold insert_of. simpl. by rewrite Hr.
  - intros stmt. rewrite list_elem_of_omap. split.
    + intros ([key info] & Hin%elem_of_map_to_list & Hstmt).
      unfold update_of in Hstmt. simpl in Hstmt.
      destruct (route_id info) as [r|] eqn:Hr; [|done]. injection Hstmt as <-.
      by exists key, info, r.
    + intros (key & info & r & Hin & Hr & ->). exists (key, info).
      split; [by apply elem_of_map_to_list|].
      unfold update_of. simpl. by rewrite Hr.
  - intros c n r row Hrow. simpl.
    case_decide as Hr; apply list_elem_of_fmap; exists row; (split; [|done]).
    + unfold update_row. rewrite decide_True by done. by rewrite Hr.
    + by rewrite update_row_other.
Qed.

(** C6.  With [only_insert] true, a mapping of N distinct pairs makes
    [modify_most_used_routes] execute exactly N statements, all of them
    inserts: one insert of (start name, end name, num_trips) for each key,
    whatever its [route_id], and no update. *)
Theorem insert_only_emits_inserts (total_names : gmap pair_key route_info)
    (conn : connection) :
  ∃ insert_array,
    executed (modify_most_used_routes total_names true conn) =
      executed conn ++ insert_array ∧
    length insert_array = size total_names ∧
    insert_array ≡ₚ
      (λ item : pair_key * route_info,
         INSERT item.1.1 item.1.2 (num_trips item.2)) <$> map_to_list total_names ∧
    (∀ n r, UPDATE n r ∉ insert_array) ∧
    (∀ key info, total_names !! key = Some info →
       INSERT key.1 key.2 (num_trips info) ∈ insert_array).
Proof.
  exists (insert_all (map_to_list total_names)).
  split; [|split; [|split; [|split]]].
  - unfold modify_most_used_routes. apply executed_execute_batch.
  - unfold insert_all. rewrite length_fmap. apply length_map_to_list.
  - done.
  - intros n r (item & Hitem & _)%list_elem_of_fmap. discriminate.
  - intros key info Hin. apply list_elem_of_fmap. exists (key, info).
    split; [done|]. by apply elem_of_map_to_list.
Qed.

(** C7.  A row of the persisted table whose name pair is absent from the
    current batch's mapping is left untouched: reconciliation adds no entry
    for the pair, none of the statements the planner executes targets the
    row (no insert of its name pair, no update of its identity; the planner
    has no delete), and the row is in the table afterwards, unchanged.
    Route identities are the table's primary key. *)
Theorem absent_pairs_are_untouched (rows : list trip_row)
    (total_names : gmap pair_key route_info) (conn : connection)
    (row : route_row) :
  extract_from_trip_fact rows = Some total_names →
  NoDup (mur_route_id <$> most_used_routes conn) →
  row ∈ most_used_routes conn →
  total_names !! route_key row = None →
  reduceByKey_most_used_routes total_names (most_used_routes conn) !! route_key row
    = None ∧
  (∃ stmts,
     executed (modify_most_used_routes
                 (reduceByKey_most_used_routes total_names (most_used_routes conn))
                 false conn) = executed conn ++ stmts ∧
     ∀ stmt, stmt ∈ stmts → ¬ targets stmt row) ∧
  row ∈ most_used_routes
          (modify_most_used_routes
             (reduceByKey_most_used_routes total_names (most_used_routes conn))
             false conn).
Proof.
  intros Htn Hids Hrow Habsent.
  set (reconciled := reduceByKey_most_used_routes total_names (most_used_routes conn)).
  assert (Hfresh : map_Forall (λ _ e, route_id e = None) total_names).
  { intros k e He. by destruct (extract_from_trip_fact_fresh rows _ k e Htn He). }
  assert (Hnone : reconciled !! route_key row = None)
    by by apply reduceByKey_lookup_None.
  assert (Hupd : ∀ n r, UPDATE n r ∈ omap update_of (map_to_list reconciled) →
                        r ≠ mur_route_id row).
  { intros n r ([key info] & Hin%elem_of_map_to_list & Hstmt)%list_elem_of_omap Heq.
    unfold update_of in Hstmt. simpl in Hstmt.
    destruct (route_id info) as [r'|] eqn:Hr; [|done]. injection Hstmt as _ ->.
    destruct (reduceByKey_route_id_source _ _ _ _ _ Hfresh Hin Hr)
      as (row' & Hrow' & Hkey & Hid).
    assert (row' = row) as ->
      by (apply (NoDup_fmap_elem_inj mur_route_id (most_used_routes conn));
          [done..|congruence]).
    subst key. fold reconciled in Hin. congruence. }
  assert (Hins : ∀ a b n, INSERT a b n ∈ omap insert_of (map_to_list reconciled) →
                          (a, b) ≠ route_key row).
  { intros a b n ([key info] & Hin%elem_of_map_to_list & Hstmt)%list_elem_of_omap Heq.
    unfold insert_of in Hstmt. simpl in Hstmt.
    destruct (route_id info); [done|]. injection Hstmt as <- <- _.
    destruct key as [a b]. simpl in Heq. congruence. }
  split; [done|]. unfold modify_most_used_routes. rewrite plan_loop_spec.
  split.
  - eexists. split; [by rewrite !executed_execute_batch, <- app_assoc|].
    intros [a b n|n r] [Hin|Hin]%elem_of_app; simpl.
    + by apply list_elem_of_omap in Hin as ([key info] & _ & Hstmt);
        unfold update_of in Hstmt; destruct (route_id _).
    + by eapply Hins.
    + by eapply Hupd.
    + by apply list_elem_of_omap in Hin as ([key info] & _ & Hstmt);
        unfold insert_of in Hstmt; destruct (route_id _).
  - apply execute_batch_keeps_row.
    + intros n r ([key info] & _ & Hstmt)%list_elem_of_omap.
      unfold insert_of in Hstmt. by destruct (route_id _).
    + by apply execute_batch_keeps_row.
Qed.

Lemma absent_pairs_are_untouched_witness :
  reduceByKey_most_used_routes scenario_total_names (most_used_routes scenario_conn)
    !! route_key (RouteRow 8 "S3" "S4" 9) = None ∧
  (∃ stmts,
     executed (modify_most_used_routes
                 (reduceByKey_most_used_routes scenario_total_names
                    (most_used_routes scenario_conn))
                 false scenario_conn) = executed scenario_conn ++ stmts ∧
     ∀ stmt, stmt ∈ stmts → ¬ targets stmt (RouteRow 8 "S3" "S4" 9)) ∧
  RouteRow 8 "S3" "S4" 9 ∈
    most_used_routes
      (modify_most_used_routes
         (reduceByKey_most_used_routes scenario_total_names
            (most_used_routes scenario_conn))
         false scenario_conn).
Proof.
  apply (absent_pairs_are_untouched scenario_rows).
  - vm_compute. reflexivity.
  - apply (bool_decide_unpack _). vm_compute. exact I.
  - apply (bool_decide_unpack _). vm_compute. exact I.
  - vm_compute. reflexivity.
Defined.

(** ** The end-to-end scenario of the specification, evaluated *)

Example scenario_extract :
  extract_from_trip_fact scenario_rows = Some scenario_total_names.
Proof. vm_compute. reflexivity. Qed.

Example scenario_insert_only :
  executed (modify_most_used_routes scenario_total_names true (Connection [] 1 []))
  ≡ₚ [ INSERT "S1" "S2" 2; INSERT "S2" "S1" 1 ].
Proof.
  apply (bool_decide_unpack _). vm_compute. exact I.
Qed.

Example scenario_reconcile :
  reduceByKey_most_used_routes scenario_total_names [ RouteRow 7 "S1" "S2" 3 ] =
  <[("S1", "S2") := RouteInfo (Some 7) 5]> (<[("S2", "S1") := RouteInfo None 1]> ∅).
Proof. vm_compute. reflexivity. Qed.

Example scenario_update_and_insert :
  executed
    (modify_most_used_routes
       (reduceByKey_most_used_routes scenario_total_names [ RouteRow 7 "S1" "S2" 3 ])
       false (Connection [ RouteRow 7 "S1" "S2" 3 ] 8 [])) =
  [ UPDATE 5 7; INSERT "S2" "S1" 1 ].
Proof. vm_compute. reflexivity. Qed.

(** An id observed with two names keeps the first one. *)
Example rigged_names :
  (scan_rows [ TripRow "1" "First" "2" "Other"; TripRow "1" "Second" "2" "Other" ]).2
    !! "1" = Some "First".
Proof. vm_compute. reflexivity. Qed.

(** Two ids that carry the same name are summed under one name pair. *)
Example shared_name_is_summed :
  extract_from_trip_fact [ TripRow "1" "S" "2" "T"; TripRow "3" "S" "2" "T" ] =
  Some (<[("S", "T") := RouteInfo None 2]> ∅).
Proof. vm_compute. reflexivity. Qed.

(** * Further properties of the code *)

(** ** Counting lemmas *)

Lemma sum_with_indicator_bounds {A} (P : A → Prop) `{∀ x, Decision (P x)} (l : list A) :
  0 ≤ sum_with (λ x, if decide (P x) then 1 else 0) l ≤ Z.of_nat (length l).
Proof.
  induction l as [|x l IH]; simpl sum_with; simpl length; [lia|].
  case_decide; lia.
Qed.

Lemma sum_with_indicator_pos {A} (P : A → Prop) `{∀ x, Decision (P x)} (l : list A) :
  0 < sum_with (λ x, if decide (P x) then 1 else 0) l ↔ ∃ x, x ∈ l ∧ P x.
Proof.
  pose proof (sum_with_indicator_bounds P) as Hb.
  induction l as [|x l IH]; simpl.
  - split; [lia|]. by intros (x & ?%elem_of_nil & _).
  - specialize (Hb l). split.
    + case_decide as Hx.
      * intros _. exists x. split; [by left | done].
      * rewrite Z.add_0_l. intros (y & Hy & HP)%IH. exists y. split; [by right | done].
    + intros (y & [->|Hy]%elem_of_cons & HP).
      * rewrite decide_True by done. lia.
      * assert (0 < sum_with (λ x, if decide (P x) then 1 else 0) l)
          by (apply IH; eauto).
        case_decide; lia.
Qed.

Lemma map_sum_lower_bound `{Countable K} {A} (f : A → Z) (m : gmap K A) :
  map_Forall (λ _ a, 1 ≤ f a) m → Z.of_nat (size m) ≤ map_sum (λ _ a, f a) m.
Proof.
  induction m as [|k a m Hk IH] using map_ind; intros Hm.
  - by rewrite map_size_empty, map_sum_empty.
  - apply map_Forall_insert in Hm as [Ha Hm]; [|done].
    rewrite map_size_insert_None, map_sum_insert_fresh by done.
    specialize (IH Hm). lia.
Qed.

Lemma extract_from_trip_fact_total rows tn :
  extract_from_trip_fact rows = Some tn → total_trips tn = Z.of_nat (length rows).
Proof.
  rewrite extract_from_trip_fact_unfold. intros Htn.
  rewrite (rekey_loop_total _ _ _ _ _ Htn).
  unfold total_trips at 1. rewrite map_sum_empty.
  replace (sum_with _ _) with (map_sum (λ (_ : pair_key) (c : Z), c) (scan_rows rows).1)
    by (symmetry; apply (sum_with_keys (λ _ c, c))).
  rewrite (map_sum_scan_rows _ (λ _, 1)); [|done|done].
  rewrite sum_with_ones. lia.
Qed.

(** X1.  After the scan, the id-pair dictionary holds under each id pair
    the number of rows with that pair, and holds no entry for a pair that no
    row has. *)
Theorem total_counts_rows_by_ids (rows : list trip_row) (key : pair_key) :
  (scan_rows rows).1 !! key =
  if decide (0 < trips_by_ids key rows) then Some (trips_by_ids key rows) else None.
Proof.
  unfold trips_by_ids.
  induction rows as [|row rows IH] using rev_ind.
  - unfold scan_rows. simpl. by rewrite lookup_empty.
  - pose proof (sum_with_indicator_bounds (λ row, ids row = key) rows) as Hb.
    rewrite scan_rows_snoc, sum_with_app. simpl.
    rewrite count_trip_insert, lookup_insert.
    destruct (decide (ids row = key)) as [->|Hne].
    + rewrite IH. rewrite (decide_True (P := 0 < _ + _)) by lia.
      case_decide; simpl; f_equal; lia.
    + rewrite IH, !Z.add_0_r. done.
Qed.

(** X2.  A name pair is a key of the mapping returned by
    [extract_from_trip_fact] exactly when the ids of some row resolve to it. *)
Theorem name_pair_present_iff (rows : list trip_row)
    (total_names : gmap pair_key route_info) (key : pair_key) :
  extract_from_trip_fact rows = Some total_names →
  is_Some (total_names !! key) ↔
  ∃ row, row ∈ rows ∧ resolve (scan_rows rows).2 (ids row) = Some key.
Proof.
  intros Htn. rewrite (extract_from_trip_fact_lookup _ _ key Htn).
  unfold trips_between.
  rewrite <- (sum_with_indicator_pos
                (λ row, resolve (scan_rows rows).2 (ids row) = Some key) rows).
  case_decide as Hpos; split.
  - done.
  - by eexists.
  - by intros [? ?].
  - done.
Qed.

Lemma name_pair_present_iff_witness :
  is_Some (scenario_total_names !! ("S2", "S1")) ↔
  ∃ row, row ∈ scenario_rows ∧
         resolve (scan_rows scenario_rows).2 (ids row) = Some ("S2", "S1").
Proof.
  apply (name_pair_present_iff scenario_rows). vm_compute. reflexivity.
Defined.

(** X3.  Every entry of the mapping returned by [extract_from_trip_fact]
    counts at least one trip and at most all the rows of the table. *)
Theorem extracted_counts_are_bounded (rows : list trip_row)
    (total_names : gmap pair_key route_info) (key : pair_key) (info : route_info) :
  extract_from_trip_fact rows = Some total_names →
  total_names !! key = Some info →
  1 ≤ num_trips info ≤ Z.of_nat (length rows).
Proof.
  intros Htn Hinfo.
  destruct (extract_from_trip_fact_fresh _ _ _ _ Htn Hinfo) as [_ Hpos].
  destruct (extract_from_trip_fact_trips_of _ _ key Htn) as [_ Hb].
  rewrite Hinfo in Hb. simpl in Hb. rewrite Hb in *. unfold trips_between in *.
  pose proof (sum_with_indicator_bounds
                (λ row, resolve (scan_rows rows).2 (ids row) = Some key) rows).
  lia.
Qed.

Lemma extracted_counts_are_bounded_witness :
  1 ≤ num_trips (RouteInfo None 2) ≤ Z.of_nat (length scenario_rows).
Proof.
  apply (extracted_counts_are_bounded scenario_rows scenario_total_names ("S1", "S2")).
  - vm_compute. reflexivity.
  - vm_compute. reflexivity.
Defined.

(** X4.  The mapping returned by [extract_from_trip_fact] has at most as
    many keys as the table has rows, and it is empty exactly when the table
    is empty. *)
Theorem extracted_size_is_bounded (rows : list trip_row) :
  ∃ total_names,
    extract_from_trip_fact rows = Some total_names ∧
    (size total_names ≤ length rows)%nat ∧
    (total_names = ∅ ↔ rows = []).
Proof.
  destruct (extract_from_trip_fact_is_Some rows) as [tn Htn].
  pose proof (extract_from_trip_fact_total _ _ Htn) as Hsum.
  exists tn. split; [done|].
  assert (Hsize : Z.of_nat (size tn) ≤ total_trips tn).
  { apply map_sum_lower_bound. intros k e He.
    destruct (extract_from_trip_fact_fresh _ _ _ _ Htn He). lia. }
  split; [lia|]. split.
  - intros ->. unfold total_trips in Hsum. rewrite map_sum_empty in Hsum.
    destruct rows; [done | simpl in Hsum; lia].
  - intros ->. vm_compute in Htn. by injection Htn as <-.
Qed.

(** X5.  The mapping returned by [extract_from_trip_fact] does not depend
    on the order in which the re-keying loop visits the keys of the id-pair
    dictionary: every enumeration of the keys gives the same mapping. *)
Theorem extraction_ignores_key_order (rows : list trip_row) (keys : list pair_key) :
  keys ≡ₚ (map_to_list (scan_rows rows).1).*1 →
  rekey_loop (scan_rows rows).2 (scan_rows rows).1 keys ∅ =
  extract_from_trip_fact rows.
Proof. apply extract_from_trip_fact_any_order. Qed.

Lemma extraction_ignores_key_order_witness :
  rekey_loop (scan_rows scenario_rows).2 (scan_rows scenario_rows).1
    (reverse (map_to_list (scan_rows scenario_rows).1).*1) ∅ =
  extract_from_trip_fact scenario_rows.
Proof.
  apply (extraction_ignores_key_order scenario_rows). apply reverse_Permutation.
Defined.

Lemma first_observed_name_is_Some_iff id obs :
  is_Some (first_observed_name id obs) ↔ ∃ name, (id, name) ∈ obs.
Proof.
  split; [|intros [name Hin]; by eapply first_observed_name_is_Some].
  induction obs as [|[id' n] obs IH]; simpl; [by intros [? ?]|].
  case_decide as Hid.
  - intros _. exists n. subst. by left.
  - intros [name Hin]%IH. exists name. by right.
Qed.

(** X6.  The id→name dictionary built by the scan has an entry for an id
    exactly when some row carries that id as its start or its end station. *)
Theorem names_cover_the_ids_of_the_rows (rows : list trip_row) (id : string) :
  is_Some ((scan_rows rows).2 !! id) ↔
  ∃ row, row ∈ rows ∧ (start_station_id row = id ∨ end_station_id row = id).
Proof.
  rewrite scan_rows_names, first_observed_name_is_Some_iff. split.
  - intros [name (row & Hobs & Hrow)%list_elem_of_bind]. exists row. split; [done|].
    apply elem_of_cons in Hobs as [[= -> _]|Hobs]; [by left|].
    apply elem_of_cons in Hobs as [[= -> _]|Hobs]; [by right|].
    by apply elem_of_nil in Hobs.
  - intros (row & [Hs He]%elem_of_mentions & [<-|<-]); by eexists.
Qed.

(** ** Further properties of reduceByKey_most_used_routes *)

Lemma sum_with_nonneg_in {A} (f : A → Z) l :
  (∀ x, x ∈ l → 0 ≤ f x) → 0 ≤ sum_with f l.
Proof.
  induction l as [|x l IH]; intros Hf; simpl; [done|].
  assert (0 ≤ f x) by (apply Hf; by left).
  assert (0 ≤ sum_with f l) by (apply IH; intros y Hy; apply Hf; by right).
  lia.
Qed.

(** X7.  Reconciliation neither adds nor removes a key of the mapping, and
    when no persisted count is negative it never lowers a count. *)
Theorem reconcile_keeps_the_keys (total_names : gmap pair_key route_info)
    (persisted : list route_row) :
  dom (reduceByKey_most_used_routes total_names persisted) = dom total_names ∧
  ((∀ row, row ∈ persisted → 0 ≤ mur_num_trips row) →
   ∀ key info info',
     total_names !! key = Some info →
     reduceByKey_most_used_routes total_names persisted !! key = Some info' →
     num_trips info ≤ num_trips info').
Proof.
  split.
  - apply set_eq. intros key.
    by rewrite !elem_of_dom, reduceByKey_lookup, fmap_is_Some.
  - intros Hpos key info info' Hinfo. rewrite reduceByKey_lookup, Hinfo. simpl.
    intros [= <-]. simpl.
    assert (0 ≤ sum_with mur_num_trips (persisted_rows_of key persisted)); [|lia].
    apply sum_with_nonneg_in. intros row [_ Hrow]%list_elem_of_filter. by apply Hpos.
Qed.

(** X8.  Reconciliation is not idempotent: reconciling a mapping twice with
    the same persisted table adds the persisted counts of a key twice. *)
Theorem reconcile_twice_counts_twice (total_names : gmap pair_key route_info)
    (persisted : list route_row) (key : pair_key) (info : route_info)
    (row : route_row) :
  total_names !! key = Some info →
  last (persisted_rows_of key persisted) = Some row →
  reduceByKey_most_used_routes
    (reduceByKey_most_used_routes total_names persisted) persisted !! key =
  Some (RouteInfo (Some (mur_route_id row))
          (num_trips info + 2 * table_count key persisted)).
Proof.
  intros Hinfo Hlast. rewrite !reduceByKey_lookup, Hinfo, Hlast. simpl.
  unfold table_count. do 2 f_equal. lia.
Qed.

Lemma reconcile_twice_counts_twice_witness :
  reduceByKey_most_used_routes
    (reduceByKey_most_used_routes batch_total_names persisted_once) persisted_once
    !! ("A", "B") =
  Some (RouteInfo (Some 7) (5 + 2 * table_count ("A", "B") persisted_once)).
Proof.
  apply (reconcile_twice_counts_twice batch_total_names persisted_once ("A", "B")
           (RouteInfo None 5) (RouteRow 7 "A" "B" 10)).
  - vm_compute. reflexivity.
  - vm_compute. reflexivity.
Defined.

(** X9.  Reconciliation adds to the sum of all counts of the mapping the
    counts of exactly those persisted rows whose name pair is a key of the
    mapping. *)
Theorem reconcile_total (total_names : gmap pair_key route_info)
    (persisted : list route_row) :
  total_trips (reduceByKey_most_used_routes total_names persisted) =
  total_trips total_names +
  sum_with (λ row, if decide (is_Some (total_names !! route_key row))
                   then mur_num_trips row else 0) persisted.
Proof.
  induction persisted as [|row persisted IH] using rev_ind.
  - unfold reduceByKey_most_used_routes. simpl. lia.
  - rewrite reduceByKey_snoc, reduce_row_spec, sum_with_app. simpl.
    pose proof (reduceByKey_lookup total_names persisted (route_key row)) as Hrow.
    destruct (reduceByKey_most_used_routes total_names persisted !! route_key row)
      as [e|] eqn:He.
    + unfold total_trips in *. rewrite map_sum_insert, He, IH. simpl.
      rewrite decide_True; [lia|].
      destruct (total_names !! route_key row); [by eexists | done].
    + rewrite IH. rewrite decide_False; [lia|].
      destruct (total_names !! route_key row); [done | by intros [? ?]].
Qed.

(** ** select_from_table *)

Lemma id_idx_of_snoc names name :
  id_idx_of (names ++ [name]) = <[name := length names]> (id_idx_of names).
Proof.
  unfold id_idx_of. rewrite imap_app, fold_left_app. simpl.
  by rewrite Nat.add_0_r.
Qed.

Lemma id_idx_of_lookup names name i :
  id_idx_of names !! name = Some i ↔
  names !! i = Some name ∧ ∀ j, names !! j = Some name → (j ≤ i)%nat.
Proof.
  revert i. induction names as [|x names IH] using rev_ind; intros i.
  - unfold id_idx_of. simpl. rewrite lookup_empty. split; [done|]. by intros [? _].
  - rewrite id_idx_of_snoc, lookup_insert.
    assert (Hlast : (names ++ [x]) !! length names = Some x)
      by by apply list_lookup_middle.
    case_decide as Hx.
    + subst x. split.
      * intros [= <-]. split; [done|].
        intros j Hj%lookup_lt_Some. rewrite length_app in Hj. simpl in Hj. lia.
      * intros [Hi Hmax]. f_equal.
        apply lookup_lt_Some in Hi. rewrite length_app in Hi. simpl in Hi.
        specialize (Hmax _ Hlast). lia.
    + assert (Hin : ∀ j, (names ++ [x]) !! j = Some name ↔ names !! j = Some name).
      { intros j. rewrite lookup_app_Some. split; [|by left].
        intros [?|[_ Hj]]; [done|].
        apply list_elem_of_lookup_2, list_elem_of_singleton in Hj. congruence. }
      rewrite IH, Hin. by setoid_rewrite Hin.
Qed.

(** X10.  The dictionary [id_idx] built by [select_from_table] maps a name
    to the last position at which the name occurs in [id_names]; when the
    names are distinct, looking up the name at position [i] gives back [i]. *)
Theorem id_idx_is_the_last_position (id_names : list string) :
  (∀ name i,
     id_idx_of id_names !! name = Some i ↔
     id_names !! i = Some name ∧ ∀ j, id_names !! j = Some name → (j ≤ i)%nat) ∧
  (NoDup id_names →
   ∀ name i, id_names !! i = Some name → id_idx_of id_names !! name = Some i).
Proof.
  split; [intros name i; apply id_idx_of_lookup|].
  intros Hnodup name i Hi. apply id_idx_of_lookup. split; [done|].
  intros j Hj. by rewrite (NoDup_lookup _ _ _ _ Hnodup Hi Hj).
Qed.


(** ** create_trip_fact_table *)

Lemma string_app_cons c (s t : string) : String c s +:+ t = String c (s +:+ t).
Proof. reflexivity. Qed.

Lemma string_app_nil_r (s : string) : s +:+ "" = s.
Proof. induction s as [|c s IH]; [done|]. by rewrite string_app_cons, IH. Qed.

Lemma string_app_assoc (s1 s2 s3 : string) : (s1 +:+ s2) +:+ s3 = s1 +:+ (s2 +:+ s3).
Proof.
  induction s1 as [|c s1 IH]; [done|]. rewrite !string_app_cons. by f_equal.
Qed.

Lemma drop_last_app (s t : string) :
  t ≠ "" → drop_last (s +:+ t) = s +:+ drop_last t.
Proof.
  intros Ht. induction s as [|c s IH]; [done|].
  rewrite !string_app_cons. simpl. rewrite IH.
  destruct (s +:+ t) eqn:Hst; [|done].
  destruct s; [done|]. by rewrite string_app_cons in Hst.
Qed.

(** The text appended by the loop for [n] columns. *)
Lemma create_table_loop title_row ids text :
  fold_left create_table_step title_row (ids, text) =
  (ids ++ title_row,
   text +:+ fold_right (λ _ acc, "{} VARCHAR," +:+ acc) "" title_row).
Proof.
  revert ids text. induction title_row as [|column_title title_row IH];
    intros ids text; simpl.
  - by rewrite app_nil_r, string_app_nil_r.
  - unfold create_table_step at 2. simpl. rewrite IH.
    by rewrite <- app_assoc, string_app_assoc.
Qed.

Lemma drop_last_columns (title_row : list string) :
  title_row ≠ [] →
  drop_last (fold_right (λ _ acc, "{} VARCHAR," +:+ acc) "" title_row) =
  column_list (length title_row).
Proof.
  induction title_row as [|c1 title_row IH]; [done|]. intros _.
  destruct title_row as [|c2 title_row]; [done|].
  change (fold_right _ _ (c1 :: c2 :: title_row))
    with ("{} VARCHAR," +:+ fold_right (λ _ acc, "{} VARCHAR," +:+ acc) ""
                              (c2 :: title_row)).
  rewrite drop_last_app by done. by rewrite IH.
Qed.

Lemma placeholders_unfold c rest :
  placeholders (String c rest) =
  match rest with
  | String "}"%char rest' =>
      if Ascii.eqb c "{" then S (placeholders rest') else placeholders rest
  | _ => placeholders rest
  end.
Proof. by destruct rest. Qed.

Lemma placeholders_brace (s : string) : placeholders ("{}" +:+ s) = S (placeholders s).
Proof. reflexivity. Qed.

Lemma placeholders_cons c (s : string) :
  Ascii.eqb c "{" = false → placeholders (String c s) = placeholders s.
Proof.
  intros Hc. rewrite placeholders_unfold, Hc.
  destruct s as [|c' s']; [done|].
  by destruct c' as [[] [] [] [] [] [] [] []].
Qed.

Lemma placeholders_column (s : string) :
  placeholders ("{} VARCHAR," +:+ s) = S (placeholders s).
Proof.
  change ("{} VARCHAR," +:+ s) with ("{}" +:+ (" VARCHAR," +:+ s)).
  rewrite placeholders_brace, !string_app_cons.
  by rewrite !placeholders_cons by reflexivity.
Qed.

Lemma placeholders_column_list n :
  placeholders (column_list (S n) +:+ ");") = S n.
Proof.
  induction n as [|n IH]; [reflexivity|].
  change (column_list (S (S n))) with ("{} VARCHAR," +:+ column_list (S n)).
  by rewrite string_app_assoc, placeholders_column, IH.
Qed.

Lemma placeholders_create_table (s : string) :
  placeholders ("CREATE TABLE {} (" +:+ s) = S (placeholders s).
Proof.
  change ("CREATE TABLE {} (" +:+ s) with ("CREATE TABLE " +:+ ("{}" +:+ (" (" +:+ s))).
  set (t := "{}" +:+ (" (" +:+ s)).
  rewrite !string_app_cons, !placeholders_cons by reflexivity.
  change ("" +:+ t) with t. subst t.
  rewrite placeholders_brace, !string_app_cons.
  by rewrite !placeholders_cons by reflexivity.
Qed.

(** X12.  [create_trip_fact_table] gives [format] the table name followed
    by the column titles, and a statement text with exactly one placeholder
    for each of these identifiers, whatever the title row is. *)
Theorem create_table_placeholders_match (title_row : list string) (table_name : string) :
  (create_trip_fact_table title_row table_name).1 = table_name :: title_row ∧
  placeholders (create_trip_fact_table title_row table_name).2 =
  length (create_trip_fact_table title_row table_name).1.
Proof.
  unfold create_trip_fact_table. rewrite create_table_loop. cbn [fst snd].
  split; [done|]. destruct title_row as [|c title_row]; [reflexivity|].
  remember (c :: title_row) as cols eqn:Hcols.
  rewrite drop_last_app, drop_last_columns by (subst cols; done).
  rewrite string_app_assoc, placeholders_create_table. subst cols.
  rewrite length_app. cbn [length Nat.add].
  by rewrite placeholders_column_list.
Qed.

(** X13.  For a title row of n ≥ 1 columns the statement text is
    [CREATE TABLE {} (] followed by n comma-separated [{} VARCHAR] and [);].
    For an empty title row the slice removes the opening parenthesis instead
    of a comma, and the text is [CREATE TABLE {} );]. *)
Theorem create_table_statement_text (title_row : list string) (table_name : string) :
  (create_trip_fact_table title_row table_name).2 =
  match title_row with
  | [] => "CREATE TABLE {} );"
  | _ :: _ => "CREATE TABLE {} (" +:+ column_list (length title_row) +:+ ");"
  end.
Proof.
  unfold create_trip_fact_table. rewrite create_table_loop. cbn [fst snd].
  destruct title_row as [|c title_row]; [reflexivity|].
  remember (c :: title_row) as cols eqn:Hcols.
  rewrite drop_last_app, drop_last_columns by (subst cols; done).
  subst cols. by rewrite string_app_assoc.
Qed.

(** ** The effect of a batch on the table *)

Lemma execute_batch_app conn stmts1 stmts2 :
  execute_batch conn (stmts1 ++ stmts2) =
  execute_batch (execute_batch conn stmts1) stmts2.
Proof. unfold execute_batch. apply fold_left_app. Qed.

Lemma execute_batch_cons conn stmt stmts :
  execute_batch conn (stmt :: stmts) = execute_batch (execute conn stmt) stmts.
Proof. done. Qed.

(** An insert batch appends its rows and advances the sequence. *)
Lemma execute_batch_inserts conn stmts :
  (∀ n r, UPDATE n r ∉ stmts) →
  most_used_routes (execute_batch conn stmts) =
    most_used_routes conn ++ rows_of_inserts (route_id_seq conn) stmts ∧
  route_id_seq (execute_batch conn stmts) =
    route_id_seq conn + Z.of_nat (length stmts).
Proof.
  revert conn. induction stmts as [|stmt stmts IH]; intros conn Hins.
  - simpl. rewrite app_nil_r. split; [done | lia].
  - rewrite execute_batch_cons.
    destruct (IH (execute conn stmt)) as [Htable Hseq].
    { intros n r Hin. apply (Hins n r). by right. }
    rewrite Htable, Hseq. destruct stmt as [a b n|n r].
    + simpl. rewrite <- app_assoc. split; [done | lia].
    + exfalso. apply (Hins n r). by left.
Qed.

(** An update batch maps the rows and leaves the sequence alone. *)
Lemma execute_batch_updates conn stmts :
  (∀ a b n, INSERT a b n ∉ stmts) →
  most_used_routes (execute_batch conn stmts) =
    apply_updates stmts <$> most_used_routes conn ∧
  route_id_seq (execute_batch conn stmts) = route_id_seq conn.
Proof.
  revert conn. induction stmts as [|stmt stmts IH]; intros conn Hupd.
  - simpl. split; [|done]. unfold apply_updates. simpl. by rewrite list_fmap_id.
  - rewrite execute_batch_cons.
    destruct (IH (execute conn stmt)) as [Htable Hseq].
    { intros a b n Hin. apply (Hupd a b n). by right. }
    rewrite Htable, Hseq. destruct stmt as [a b n|n r].
    + exfalso. apply (Hupd a b n). by left.
    + simpl. split; [|done]. by rewrite <- list_fmap_compose.
Qed.

Lemma apply_updates_route_id stmts row :
  mur_route_id (apply_updates stmts row) = mur_route_id row ∧
  route_key (apply_updates stmts row) = route_key row.
Proof.
  unfold apply_updates. revert row.
  induction stmts as [|[a b n|n r] stmts IH]; intros row; simpl; [done|apply IH|].
  destruct (IH (update_row n r row)) as [-> ->].
  unfold update_row. by case_decide.
Qed.

Lemma apply_updates_untargeted stmts row :
  (∀ n, UPDATE n (mur_route_id row) ∉ stmts) → apply_updates stmts row = row.
Proof.
  unfold apply_updates. revert row.
  induction stmts as [|[a b n|n r] stmts IH]; intros row Hstmts; simpl; [done| |].
  - apply IH. intros n' Hin. apply (Hstmts n'). by right.
  - rewrite update_row_other.
    + apply IH. intros n' Hin. apply (Hstmts n'). by right.
    + intros Heq. apply (Hstmts n). rewrite Heq. by left.
Qed.

Lemma apply_updates_settled stmts row v :
  (∀ n, UPDATE n (mur_route_id row) ∈ stmts → n = v) →
  apply_updates stmts (set_num_trips row v) = set_num_trips row v.
Proof.
  unfold apply_updates.
  induction stmts as [|[a b n|n r] stmts IH]; intros Hstmts; simpl; [done| |].
  - apply IH. intros n' Hin. apply Hstmts. by right.
  - assert (Hstep : update_row n r (set_num_trips row v) = set_num_trips row v).
    { unfold update_row. simpl. case_decide as Hr; [|done].
      rewrite (Hstmts n); [done|]. rewrite <- Hr. by left. }
    rewrite Hstep. apply IH. intros n' Hin. apply Hstmts. by right.
Qed.

Lemma apply_updates_targeted stmts row v :
  (∀ n, UPDATE n (mur_route_id row) ∈ stmts → n = v) →
  UPDATE v (mur_route_id row) ∈ stmts →
  apply_updates stmts row = set_num_trips row v.
Proof.
  induction stmts as [|stmt stmts IH]; intros Hstmts Hin.
  - by apply elem_of_nil in Hin.
  - assert (Hrest : ∀ n, UPDATE n (mur_route_id row) ∈ stmts → n = v).
    { intros n' Hin'. apply Hstmts. by right. }
    destruct stmt as [a b n|n r].
    + apply elem_of_cons in Hin as [?|Hin]; [done|]. by apply IH.
    + destruct (decide (mur_route_id row = r)) as [<-|Hne].
      * assert (n = v) as -> by (apply Hstmts; by left).
        change (apply_updates (UPDATE v (mur_route_id row) :: stmts) row)
          with (apply_updates stmts (update_row v (mur_route_id row) row)).
        replace (update_row v (mur_route_id row) row) with (set_num_trips row v)
          by (unfold update_row; by rewrite decide_True).
        by apply apply_updates_settled.
      * change (apply_updates (UPDATE n r :: stmts) row)
          with (apply_updates stmts (update_row n r row)).
        rewrite update_row_other by done.
        apply elem_of_cons in Hin as [[= _ Heq]|Hin]; [congruence|]. by apply IH.
Qed.

(** ** More on sums over dictionaries *)

Lemma sum_with_add {A} (f g : A → Z) l :
  sum_with (λ x, f x + g x) l = sum_with f l + sum_with g l.
Proof. induction l as [|x l IH]; simpl; lia. Qed.

Lemma sum_with_zero {A} (l : list A) : sum_with (λ _, 0) l = 0.
Proof. induction l as [|x l IH]; simpl; lia. Qed.

Lemma sum_with_omap {A B} (f : B → Z) (g : A → option B) l :
  sum_with f (omap g l) = sum_with (λ x, from_option f 0 (g x)) l.
Proof.
  induction l as [|x l IH]; csimpl; [done|].
  destruct (g x); simpl; lia.
Qed.

Section map_sum_algebra.
Context `{Countable K} {A : Type}.
Implicit Types (m : gmap K A) (f g : K → A → Z).

Lemma map_sum_ext f g m :
  (∀ k a, m !! k = Some a → f k a = g k a) → map_sum f m = map_sum g m.
Proof.
  intros Hfg. apply sum_with_ext_in.
  intros [k a] Hin%elem_of_map_to_list. by apply Hfg.
Qed.

Lemma map_sum_add f g m :
  map_sum (λ k a, f k a + g k a) m = map_sum f m + map_sum g m.
Proof. unfold map_sum. by rewrite <- sum_with_add. Qed.

Lemma map_sum_delete f m k :
  map_sum f m = from_option (f k) 0 (m !! k) + map_sum f (delete k m).
Proof.
  destruct (m !! k) as [a|] eqn:Hk; simpl.
  - rewrite <- (insert_id m k a Hk) at 1. rewrite <- insert_delete_eq.
    apply map_sum_insert_fresh, lookup_delete_eq.
  - by rewrite delete_id.
Qed.

Lemma map_sum_indicator (h : A → Z) m k0 :
  map_sum (λ k a, if decide (k = k0) then h a else 0) m = from_option h 0 (m !! k0).
Proof.
  rewrite (map_sum_delete _ m k0).
  rewrite (map_sum_ext _ (λ _ _, 0) (delete k0 m)).
  - unfold map_sum at 1. rewrite sum_with_zero.
    destruct (m !! k0); simpl; [rewrite decide_True by done|]; lia.
  - intros k a Hk. rewrite decide_False; [done|].
    intros ->. by rewrite lookup_delete_eq in Hk.
Qed.
End map_sum_algebra.

(** Two dictionaries whose entries contribute the same, key by key, have
    the same sum. *)
Lemma map_sum_ext_lookup `{Countable K} {A B} (f : K → A → Z) (g : K → B → Z)
    (m1 : gmap K A) (m2 : gmap K B) :
  (∀ k, from_option (f k) 0 (m1 !! k) = from_option (g k) 0 (m2 !! k)) →
  map_sum f m1 = map_sum g m2.
Proof.
  revert m2. induction m1 as [|i x m1 Hi IH] using map_ind; intros m2 Hfg.
  - rewrite map_sum_empty. rewrite (map_sum_ext g (λ _ _, 0)).
    + unfold map_sum. by rewrite sum_with_zero.
    + intros k b Hk. specialize (Hfg k). rewrite lookup_empty, Hk in Hfg. done.
  - rewrite map_sum_insert_fresh by done. rewrite (map_sum_delete g m2 i).
    pose proof (Hfg i) as Hfi. rewrite lookup_insert_eq in Hfi. simpl in Hfi.
    rewrite <- Hfi. f_equal. apply IH. intros k.
    destruct (decide (k = i)) as [->|Hne].
    + by rewrite Hi, lookup_delete_eq.
    + specialize (Hfg k). by rewrite lookup_insert_ne, lookup_delete_ne in * by done.
Qed.

(** ** Rows, keys and counts of a table *)

Lemma table_count_app key table1 table2 :
  table_count key (table1 ++ table2) = table_count key table1 + table_count key table2.
Proof. unfold table_count, persisted_rows_of. by rewrite filter_app, sum_with_app. Qed.

Lemma table_count_rows_of_inserts key seq stmts :
  table_count key (rows_of_inserts seq stmts) = inserted_count key stmts.
Proof.
  unfold table_count, persisted_rows_of, inserted_count. revert seq.
  induction stmts as [|[a b n|n r] stmts IH]; intros seq; simpl; [done| |].
  - rewrite filter_cons. unfold route_key at 1. simpl.
    repeat case_decide; try done; simpl; by rewrite IH.
  - by rewrite IH.
Qed.

Lemma route_key_rows_of_inserts seq stmts :
  route_key <$> rows_of_inserts seq stmts = inserted_keys stmts.
Proof.
  unfold inserted_keys. revert seq.
  induction stmts as [|[a b n|n r] stmts IH]; intros seq; csimpl; [done| |].
  - by rewrite IH.
  - by rewrite IH.
Qed.

Lemma route_id_rows_of_inserts seq stmts row :
  row ∈ rows_of_inserts seq stmts →
  seq ≤ mur_route_id row < seq + Z.of_nat (length stmts).
Proof.
  revert seq. induction stmts as [|[a b n|n r] stmts IH]; intros seq; simpl.
  - by intros ?%elem_of_nil.
  - intros [->|Hin%IH]%elem_of_cons; simpl; lia.
  - intros Hin%IH. lia.
Qed.

Lemma NoDup_route_id_rows_of_inserts seq stmts :
  NoDup (mur_route_id <$> rows_of_inserts seq stmts).
Proof.
  revert seq. induction stmts as [|[a b n|n r] stmts IH]; intros seq; csimpl.
  - constructor.
  - apply NoDup_cons. split; [|apply IH].
    intros (row & Hid & Hin%route_id_rows_of_inserts)%list_elem_of_fmap. lia.
  - apply IH.
Qed.

Lemma table_total_app table1 table2 :
  table_total (table1 ++ table2) = table_total table1 + table_total table2.
Proof. apply sum_with_app. Qed.

Lemma table_total_rows_of_inserts seq stmts :
  table_total (rows_of_inserts seq stmts) =
  sum_with (λ stmt, match stmt with INSERT _ _ n => n | UPDATE _ _ => 0 end) stmts.
Proof.
  unfold table_total. revert seq.
  induction stmts as [|[a b n|n r] stmts IH]; intros seq; simpl; [done| |];
    by rewrite IH.
Qed.

Lemma filter_none {A} (P : A → Prop) `{∀ x, Decision (P x)} (l : list A) :
  (∀ x, x ∈ l → ¬ P x) → filter P l = [].
Proof.
  induction l as [|x l IH]; intros Hl; [done|].
  rewrite filter_cons, decide_False by (apply Hl; by left).
  apply IH. intros y Hy. apply Hl. by right.
Qed.

Lemma persisted_rows_of_unique table row :
  NoDup (route_key <$> table) → row ∈ table →
  persisted_rows_of (route_key row) table = [row].
Proof.
  unfold persisted_rows_of.
  induction table as [|row' table IH]; [by intros _ ?%elem_of_nil|].
  rewrite fmap_cons. intros [Hfresh Hnodup]%NoDup_cons Hin. rewrite filter_cons.
  assert (Hnone : ∀ r, route_key r ∉ route_key <$> table →
                       filter (λ y, route_key y = route_key r) table = []).
  { intros r Hr. apply filter_none.
    intros y Hy Heq. apply Hr. rewrite <- Heq. by apply list_elem_of_fmap_2. }
  apply elem_of_cons in Hin as [->|Hin].
  - rewrite decide_True by done. by rewrite Hnone.
  - rewrite decide_False; [by apply IH|].
    intros Heq. apply Hfresh. rewrite Heq. by apply list_elem_of_fmap_2.
Qed.

Lemma persisted_rows_of_absent table key :
  key ∉ route_key <$> table → persisted_rows_of key table = [].
Proof.
  intros Hkey. apply filter_none.
  intros y Hy Heq. apply Hkey. rewrite <- Heq. by apply list_elem_of_fmap_2.
Qed.

(** ** A merge batch: reduceByKey_most_used_routes, then
    modify_most_used_routes with only_insert false *)

Section merge.
Context (tn : gmap pair_key route_info) (conn : connection).
Hypothesis Hfresh : map_Forall (λ _ e, route_id e = None) tn.
Hypothesis Hkeys : NoDup (route_key <$> most_used_routes conn).
Hypothesis Hids : NoDup (mur_route_id <$> most_used_routes conn).

Lemma reconciled_lookup_present row :
  row ∈ most_used_routes conn →
  reduceByKey_most_used_routes tn (most_used_routes conn) !! route_key row =
  (λ e, RouteInfo (Some (mur_route_id row)) (num_trips e + mur_num_trips row))
    <$> tn !! route_key row.
Proof.
  intros Hrow. rewrite reduceByKey_lookup, persisted_rows_of_unique by done.
  simpl. by rewrite Z.add_0_r.
Qed.

Lemma reconciled_lookup_absent key :
  key ∉ route_key <$> most_used_routes conn →
  reduceByKey_most_used_routes tn (most_used_routes conn) !! key = tn !! key.
Proof.
  intros Hkey. rewrite reduceByKey_lookup, persisted_rows_of_absent by done.
  destruct (tn !! key) as [[r n]|]; simpl; [|done]. by rewrite Z.add_0_r.
Qed.

(** An update of the batch that targets a row carries the merged count. *)
Lemma update_of_row row n :
  row ∈ most_used_routes conn →
  UPDATE n (mur_route_id row) ∈
    omap update_of (map_to_list (reduceByKey_most_used_routes tn (most_used_routes conn))) →
  ∃ e, tn !! route_key row = Some e ∧ n = num_trips e + mur_num_trips row.
Proof.
  intros Hrow ([key info] & Hin%elem_of_map_to_list & Hstmt)%list_elem_of_omap.
  unfold update_of in Hstmt. simpl in Hstmt.
  destruct (route_id info) as [r|] eqn:Hr; [|done].
  injection Hstmt as Hn Hrid. subst n r.
  destruct (reduceByKey_route_id_source _ _ _ _ _ Hfresh Hin Hr)
    as (row' & Hrow' & Hkey & Hid).
  assert (row' = row) as ->
    by (by apply (NoDup_fmap_elem_inj mur_route_id (most_used_routes conn))).
  subst key. rewrite reconciled_lookup_present in Hin by done.
  destruct (tn !! route_key row) as [e|]; simpl in Hin; [|done].
  exists e. split; [done|]. by injection Hin as <-.
Qed.

Lemma apply_updates_row row :
  row ∈ most_used_routes conn →
  apply_updates
    (omap update_of (map_to_list (reduceByKey_most_used_routes tn (most_used_routes conn))))
    row = merged_row tn row.
Proof.
  intros Hrow. unfold merged_row.
  destruct (tn !! route_key row) as [e|] eqn:He; simpl.
  - rewrite Z.add_comm. apply apply_updates_targeted.
    + intros n (e' & He' & ->)%update_of_row; [|done]. congruence.
    + apply list_elem_of_omap.
      exists (route_key row,
              RouteInfo (Some (mur_route_id row)) (num_trips e + mur_num_trips row)).
      split; [|done]. apply elem_of_map_to_list.
      by rewrite reconciled_lookup_present, He.
  - rewrite Z.add_0_r. rewrite apply_updates_untargeted.
    + by destruct row.
    + intros n (e' & He' & _)%update_of_row; [|done]. congruence.
Qed.

Lemma omap_insert_of_no_update (items : list (pair_key * route_info)) n r :
  UPDATE n r ∉ omap insert_of items.
Proof.
  intros ([key info] & _ & Hstmt)%list_elem_of_omap.
  unfold insert_of in Hstmt. by destruct (route_id _).
Qed.

Lemma omap_update_of_no_insert (items : list (pair_key * route_info)) a b n :
  INSERT a b n ∉ omap update_of items.
Proof.
  intros ([key info] & _ & Hstmt)%list_elem_of_omap.
  unfold update_of in Hstmt. by destruct (route_id _).
Qed.

(** The table after the batch: every persisted row merged in place, then
    the inserted rows. *)
Lemma merge_batch_table :
  most_used_routes
    (modify_most_used_routes
       (reduceByKey_most_used_routes tn (most_used_routes conn)) false conn) =
  (merged_row tn <$> most_used_routes conn) ++
  rows_of_inserts (route_id_seq conn)
    (omap insert_of
       (map_to_list (reduceByKey_most_used_routes tn (most_used_routes conn)))).
Proof.
  unfold modify_most_used_routes. rewrite plan_loop_spec.
  destruct (execute_batch_inserts
              (execute_batch conn
                 (omap update_of
                    (map_to_list
                       (reduceByKey_most_used_routes tn (most_used_routes conn)))))
              (omap insert_of
                 (map_to_list
                    (reduceByKey_most_used_routes tn (most_used_routes conn)))))
    as [-> _]; [intros n r; apply omap_insert_of_no_update|].
  destruct (execute_batch_updates conn
              (omap update_of
                 (map_to_list
                    (reduceByKey_most_used_routes tn (most_used_routes conn)))))
    as [-> ->]; [intros a b n; apply omap_update_of_no_insert|].
  f_equal. apply list_eq. intros i. rewrite !list_lookup_fmap.
  destruct (most_used_routes conn !! i) as [row|] eqn:Hrow; simpl; [|done].
  f_equal. apply apply_updates_row. by eapply list_elem_of_lookup_2.
Qed.

End merge.

Lemma inserted_count_insert_of (key : pair_key) (m : gmap pair_key route_info) :
  inserted_count key (omap insert_of (map_to_list m)) =
  from_option (λ info, match route_id info with
                       | None => num_trips info
                       | Some _ => 0
                       end) 0 (m !! key).
Proof.
  unfold inserted_count. rewrite sum_with_omap, <- map_sum_indicator.
  apply sum_with_ext_in. intros [[a b] info] _. unfold insert_of. simpl.
  destruct (route_id info); simpl; repeat case_decide; done.
Qed.

Lemma inserted_count_insert_all (key : pair_key) (m : gmap pair_key route_info) :
  inserted_count key (insert_all (map_to_list m)) = trips_of (m !! key).
Proof.
  unfold inserted_count, insert_all, trips_of.
  rewrite sum_with_fmap, <- map_sum_indicator.
  apply sum_with_ext_in. intros [[a b] info] _. simpl.
  repeat case_decide; done.
Qed.

Lemma inserted_keys_insert_of (items : list (pair_key * route_info)) :
  inserted_keys (omap insert_of items) =
  omap (λ item : pair_key * route_info,
          match route_id item.2 with None => Some item.1 | Some _ => None end) items.
Proof.
  unfold inserted_keys.
  induction items as [|[[a b] info] items IH]; csimpl; [done|].
  unfold insert_of at 1. simpl. destruct (route_id info); csimpl; by rewrite IH.
Qed.

Lemma inserted_keys_insert_all (items : list (pair_key * route_info)) :
  inserted_keys (insert_all items) = items.*1.
Proof.
  unfold inserted_keys, insert_all.
  induction items as [|[[a b] info] items IH]; csimpl; [done|]. by rewrite IH.
Qed.

Lemma NoDup_omap_fst {A B} (g : A * B → option A) (l : list (A * B)) :
  (∀ item k, g item = Some k → k = item.1) →
  NoDup l.*1 → NoDup (omap g l).
Proof.
  intros Hg. induction l as [|item l IH]; csimpl; [constructor|].
  intros [Hfresh Hnodup]%NoDup_cons.
  destruct (g item) as [k|] eqn:Hk; [|by apply IH].
  apply NoDup_cons. split; [|by apply IH].
  intros (item' & Hin & Hk')%list_elem_of_omap. apply Hfresh.
  rewrite <- (Hg _ _ Hk), (Hg _ _ Hk'). by apply list_elem_of_fmap_2.
Qed.

Lemma persisted_rows_of_merged tn (key : pair_key) table :
  persisted_rows_of key (merged_row tn <$> table) =
  merged_row tn <$> persisted_rows_of key table.
Proof.
  unfold persisted_rows_of.
  induction table as [|row table IH]; [done|].
  rewrite fmap_cons, !filter_cons.
  change (route_key (merged_row tn row)) with (route_key row).
  case_decide; [rewrite fmap_cons|]; by rewrite IH.
Qed.

Section merge_counts.
Context (tn : gmap pair_key route_info) (conn : connection).
Hypothesis Hfresh : map_Forall (λ _ e, route_id e = None) tn.
Hypothesis Hkeys : NoDup (route_key <$> most_used_routes conn).
Hypothesis Hids : NoDup (mur_route_id <$> most_used_routes conn).

Lemma merge_inserted_count (key : pair_key) :
  inserted_count key
    (omap insert_of
       (map_to_list (reduceByKey_most_used_routes tn (most_used_routes conn)))) =
  if decide (key ∈ route_key <$> most_used_routes conn) then 0
  else trips_of (tn !! key).
Proof.
  rewrite inserted_count_insert_of. case_decide as Hkey.
  - apply list_elem_of_fmap in Hkey as (row & -> & Hrow).
    rewrite (reconciled_lookup_present tn conn) by done.
    by destruct (tn !! route_key row).
  - rewrite reconciled_lookup_absent by done.
    destruct (tn !! key) as [e|] eqn:He; [|done]. simpl.
    by rewrite (Hfresh key e He).
Qed.

Lemma merge_table_count (key : pair_key) :
  table_count key
    (most_used_routes
       (modify_most_used_routes
          (reduceByKey_most_used_routes tn (most_used_routes conn)) false conn)) =
  table_count key (most_used_routes conn) + trips_of (tn !! key).
Proof.
  rewrite (merge_batch_table tn conn) by done.
  rewrite table_count_app, table_count_rows_of_inserts, merge_inserted_count.
  unfold table_count at 1 2. rewrite persisted_rows_of_merged.
  case_decide as Hkey.
  - apply list_elem_of_fmap in Hkey as (row & -> & Hrow).
    rewrite persisted_rows_of_unique by done. unfold merged_row. simpl. lia.
  - rewrite persisted_rows_of_absent by done. simpl. lia.
Qed.

Lemma merge_inserted_keys (key : pair_key) :
  key ∈ inserted_keys
          (omap insert_of
             (map_to_list (reduceByKey_most_used_routes tn (most_used_routes conn)))) ↔
  is_Some (tn !! key) ∧ key ∉ route_key <$> most_used_routes conn.
Proof.
  rewrite inserted_keys_insert_of, list_elem_of_omap. split.
  - intros ([k info] & Hin%elem_of_map_to_list & Hk). simpl in Hk.
    destruct (route_id info) eqn:Hr; [done|]. injection Hk as ->.
    destruct (decide (key ∈ route_key <$> most_used_routes conn)) as [Hkey|Hkey].
    + apply list_elem_of_fmap in Hkey as (row & -> & Hrow).
      rewrite (reconciled_lookup_present tn conn) in Hin by done.
      destruct (tn !! route_key row); simpl in Hin; [|done].
      injection Hin as <-. done.
    + rewrite reconciled_lookup_absent in Hin by done. split; [by eexists | done].
  - intros [[e He] Hkey]. exists (key, e). split.
    + apply elem_of_map_to_list. by rewrite reconciled_lookup_absent.
    + simpl. by rewrite (Hfresh key e He).
Qed.

Lemma merge_inserted_keys_NoDup :
  NoDup (inserted_keys
           (omap insert_of
              (map_to_list (reduceByKey_most_used_routes tn (most_used_routes conn))))).
Proof.
  rewrite inserted_keys_insert_of. apply NoDup_omap_fst.
  - intros item k. destruct (route_id item.2); [done | by intros [= <-]].
  - apply NoDup_fst_map_to_list.
Qed.

End merge_counts.

Lemma extract_from_trip_fact_route_id rows tn :
  extract_from_trip_fact rows = Some tn →
  map_Forall (λ _ e, route_id e = None) tn.
Proof.
  intros Htn k e He. by destruct (extract_from_trip_fact_fresh rows _ k e Htn He).
Qed.

Lemma sum_with_keys_in (tn : gmap pair_key route_info) (keys : list pair_key) :
  NoDup keys →
  sum_with (λ key, trips_of (tn !! key)) keys =
  map_sum (λ key e, if decide (key ∈ keys) then num_trips e else 0) tn.
Proof.
  induction keys as [|k0 keys IH]; intros Hnodup.
  - symmetry.
    transitivity (map_sum (λ (_ : pair_key) (_ : route_info), 0) tn).
    + apply map_sum_ext. intros k e _. cbv beta.
      by rewrite decide_False by apply not_elem_of_nil.
    + unfold map_sum. by rewrite sum_with_zero.
  - apply NoDup_cons in Hnodup as [Hk0 Hnodup]. simpl. rewrite IH by done.
    unfold trips_of.
    rewrite <- (map_sum_indicator num_trips tn k0), <- map_sum_add.
    apply map_sum_ext. intros k e _. cbv beta.
    destruct (decide (k = k0)) as [->|Hne].
    + rewrite (decide_True (P := k0 ∈ k0 :: keys)) by (by left).
      rewrite (decide_False (P := k0 ∈ keys)) by done. lia.
    + destruct (decide (k ∈ keys)) as [Hin|Hout].
      * rewrite (decide_True (P := k ∈ k0 :: keys)) by (by right). lia.
      * rewrite (decide_False (P := k ∈ k0 :: keys)); [lia|].
        by intros [?|?]%elem_of_cons.
Qed.

Lemma table_total_merged tn (table : list route_row) :
  table_total (merged_row tn <$> table) =
  table_total table + sum_with (λ key, trips_of (tn !! key)) (route_key <$> table).
Proof.
  unfold table_total. rewrite !sum_with_fmap, <- sum_with_add.
  by apply sum_with_ext_in.
Qed.

Lemma table_total_insert_of (m : gmap pair_key route_info) (seq : Z) :
  table_total (rows_of_inserts seq (omap insert_of (map_to_list m))) =
  map_sum (λ _ info, match route_id info with
                     | None => num_trips info
                     | Some _ => 0
                     end) m.
Proof.
  rewrite table_total_rows_of_inserts, sum_with_omap.
  apply sum_with_ext_in. intros [key info] _. unfold insert_of. simpl.
  by destruct (route_id info).
Qed.

Lemma table_total_insert_all (m : gmap pair_key route_info) (seq : Z) :
  table_total (rows_of_inserts seq (insert_all (map_to_list m))) = total_trips m.
Proof.
  rewrite table_total_rows_of_inserts. unfold insert_all. by rewrite sum_with_fmap.
Qed.

Lemma merge_batch_seq (total_names : gmap pair_key route_info) conn :
  route_id_seq (modify_most_used_routes total_names false conn) =
  route_id_seq conn +
  Z.of_nat (length (omap insert_of (map_to_list total_names))).
Proof.
  unfold modify_most_used_routes. rewrite plan_loop_spec.
  destruct (execute_batch_inserts
              (execute_batch conn (omap update_of (map_to_list total_names)))
              (omap insert_of (map_to_list total_names)))
    as [_ ->]; [intros n r; apply omap_insert_of_no_update|].
  destruct (execute_batch_updates conn (omap update_of (map_to_list total_names)))
    as [_ ->]; [intros a b n; apply omap_update_of_no_insert|].
  done.
Qed.

Lemma route_key_merged tn (table : list route_row) :
  route_key <$> (merged_row tn <$> table) = route_key <$> table.
Proof. rewrite <- list_fmap_compose. by apply list_fmap_ext. Qed.

Lemma route_id_merged tn (table : list route_row) :
  mur_route_id <$> (merged_row tn <$> table) = mur_route_id <$> table.
Proof. rewrite <- list_fmap_compose. by apply list_fmap_ext. Qed.

Section merge_state.
Context (tn : gmap pair_key route_info) (conn : connection).
Hypothesis Hfresh : map_Forall (λ _ e, route_id e = None) tn.
Hypothesis Hwf : well_keyed conn.

Lemma merge_table_total :
  table_total
    (most_used_routes
       (modify_most_used_routes
          (reduceByKey_most_used_routes tn (most_used_routes conn)) false conn)) =
  table_total (most_used_routes conn) + total_trips tn.
Proof.
  destruct Hwf as (Hkeys & Hids & _).
  rewrite (merge_batch_table tn conn) by done.
  rewrite table_total_app, table_total_merged, table_total_insert_of.
  rewrite sum_with_keys_in by done.
  assert (Hnew :
    map_sum (λ (_ : pair_key) info, match route_id info with
                                    | None => num_trips info
                                    | Some _ => 0
                                    end)
      (reduceByKey_most_used_routes tn (most_used_routes conn)) =
    map_sum (λ key e, if decide (key ∈ route_key <$> most_used_routes conn)
                      then 0 else num_trips e) tn).
  { apply map_sum_ext_lookup. intros key. case_decide as Hkey.
    - apply list_elem_of_fmap in Hkey as (row & -> & Hrow).
      rewrite (reconciled_lookup_present tn conn) by done.
      by destruct (tn !! route_key row).
    - rewrite reconciled_lookup_absent by done.
      destruct (tn !! key) as [e|] eqn:He; [|done]. simpl.
      by rewrite (Hfresh key e He). }
  rewrite Hnew, <- Z.add_assoc, <- map_sum_add. f_equal.
  apply map_sum_ext. intros k e _. cbv beta. case_decide; lia.
Qed.

Lemma merge_well_keyed :
  well_keyed
    (modify_most_used_routes
       (reduceByKey_most_used_routes tn (most_used_routes conn)) false conn).
Proof.
  destruct Hwf as (Hkeys & Hids & Hseq).
  unfold well_keyed. rewrite merge_batch_seq, (merge_batch_table tn conn) by done.
  rewrite !fmap_app, route_key_merged, route_id_merged, route_key_rows_of_inserts.
  split; [|split].
  - apply NoDup_app. split; [done|]. split.
    + intros key Hkey [_ Hnew]%merge_inserted_keys; done.
    + by apply merge_inserted_keys_NoDup.
  - apply NoDup_app. split; [done|]. split.
    + intros id (row & -> & Hrow)%list_elem_of_fmap
        (row' & Hid & Hrow'%route_id_rows_of_inserts)%list_elem_of_fmap.
      specialize (Hseq row Hrow). lia.
    + apply NoDup_route_id_rows_of_inserts.
  - intros row [(row0 & -> & Hrow)%list_elem_of_fmap
               |Hrow%route_id_rows_of_inserts]%elem_of_app.
    + specialize (Hseq row0 Hrow). simpl. lia.
    + lia.
Qed.

End merge_state.

(** ** An insert-only batch *)

Lemma insert_all_no_update (items : list (pair_key * route_info)) n r :
  UPDATE n r ∉ insert_all items.
Proof. by intros (item & Hitem & _)%list_elem_of_fmap. Qed.

Lemma insert_only_table (total_names : gmap pair_key route_info) conn :
  most_used_routes (modify_most_used_routes total_names true conn) =
    most_used_routes conn ++
    rows_of_inserts (route_id_seq conn) (insert_all (map_to_list total_names)) ∧
  route_id_seq (modify_most_used_routes total_names true conn) =
    route_id_seq conn + Z.of_nat (size total_names).
Proof.
  unfold modify_most_used_routes.
  destruct (execute_batch_inserts conn (insert_all (map_to_list total_names)))
    as [-> ->]; [intros n r; apply insert_all_no_update|].
  split; [done|]. unfold insert_all. by rewrite length_fmap, length_map_to_list.
Qed.

Lemma elem_of_map_keys (total_names : gmap pair_key route_info) (key : pair_key) :
  key ∈ (map_to_list total_names).*1 ↔ is_Some (total_names !! key).
Proof.
  rewrite list_elem_of_fmap. split.
  - intros ([k e] & -> & Hin%elem_of_map_to_list). by eexists.
  - intros [e He]. exists (key, e). split; [done|]. by apply elem_of_map_to_list.
Qed.

Lemma insert_only_well_keyed (total_names : gmap pair_key route_info) conn :
  well_keyed conn →
  well_keyed (modify_most_used_routes total_names true conn) ↔
  ∀ row, row ∈ most_used_routes conn → total_names !! route_key row = None.
Proof.
  intros (Hkeys & Hids & Hseq). unfold well_keyed.
  destruct (insert_only_table total_names conn) as [-> ->].
  rewrite !fmap_app, route_key_rows_of_inserts, inserted_keys_insert_all. split.
  - intros [[_ [Hdisj _]]%NoDup_app _] row Hrow.
    destruct (total_names !! route_key row) as [e|] eqn:He; [|done].
    exfalso. apply (Hdisj (route_key row)); [by apply list_elem_of_fmap_2|].
    apply elem_of_map_keys. by eexists.
  - intros Hnew. split; [|split].
    + apply NoDup_app. split; [done|]. split; [|apply NoDup_fst_map_to_list].
      intros key (row & -> & Hrow)%list_elem_of_fmap [e He]%elem_of_map_keys.
      by rewrite (Hnew row Hrow) in He.
    + apply NoDup_app. split; [done|]. split.
      * intros id (row & -> & Hrow)%list_elem_of_fmap
          (row' & Hid & Hrow'%route_id_rows_of_inserts)%list_elem_of_fmap.
        specialize (Hseq row Hrow). lia.
      * apply NoDup_route_id_rows_of_inserts.
    + intros row [Hrow|Hrow%route_id_rows_of_inserts]%elem_of_app.
      * specialize (Hseq row Hrow). lia.
      * unfold insert_all in Hrow. rewrite length_fmap, length_map_to_list in Hrow. lia.
Qed.

Lemma scenario_conn_well_keyed : well_keyed scenario_conn.
Proof.
  split; [|split].
  - apply (bool_decide_unpack _). vm_compute. exact I.
  - apply (bool_decide_unpack _). vm_compute. exact I.
  - intros row Hrow. unfold scenario_conn in *. simpl in *.
    apply elem_of_cons in Hrow as [->|Hrow]; [simpl; lia|].
    apply elem_of_cons in Hrow as [->|Hrow]; [simpl; lia|].
    by apply elem_of_nil in Hrow.
Qed.





(** X16.  A merge batch on a well-keyed table raises the sum of all counts
    of the table by the number of rows of the raw trip table of the batch. *)
Theorem merge_batch_total (rows : list trip_row)
    (total_names : gmap pair_key route_info) (conn : connection) :
  extract_from_trip_fact rows = Some total_names →
  well_keyed conn →
  table_total
    (most_used_routes
       (modify_most_used_routes
          (reduceByKey_most_used_routes total_names (most_used_routes conn))
          false conn)) =
  table_total (most_used_routes conn) + Z.of_nat (length rows).
Proof.
  intros Htn Hwf. rewrite merge_table_total; [|by eapply extract_from_trip_fact_route_id|done].
  by rewrite (extract_from_trip_fact_total _ _ Htn).
Qed.

Lemma merge_batch_total_witness :
  table_total
    (most_used_routes
       (modify_most_used_routes
          (reduceByKey_most_used_routes scenario_total_names
             (most_used_routes scenario_conn))
          false scenario_conn)) =
  table_total (most_used_routes scenario_conn) + Z.of_nat (length scenario_rows).
Proof.
  apply (merge_batch_total scenario_rows).
  - vm_compute. reflexivity.
  - apply scenario_conn_well_keyed.
Defined.

(** X17.  A merge batch keeps the table well keyed: afterwards no name
    pair and no route identity is repeated, and the sequence is ahead of
    every route identity, so that the next batch can be merged in turn. *)
Theorem merge_batch_keeps_well_keyed (rows : list trip_row)
    (total_names : gmap pair_key route_info) (conn : connection) :
  extract_from_trip_fact rows = Some total_names →
  well_keyed conn →
  well_keyed
    (modify_most_used_routes
       (reduceByKey_most_used_routes total_names (most_used_routes conn))
       false conn).
Proof.
  intros Htn Hwf. apply merge_well_keyed; [|done].
  by eapply extract_from_trip_fact_route_id.
Qed.

Lemma merge_batch_keeps_well_keyed_witness :
  well_keyed
    (modify_most_used_routes
       (reduceByKey_most_used_routes scenario_total_names
          (most_used_routes scenario_conn))
       false scenario_conn).
Proof.
  apply (merge_batch_keeps_well_keyed scenario_rows).
  - vm_compute. reflexivity.
  - apply scenario_conn_well_keyed.
Defined.


(** X19.  An insert-only batch on a well-keyed table leaves the table well
    keyed exactly when no key of the mapping is a name pair of the table;
    otherwise it stores that name pair a second time. *)
Theorem insert_only_well_keyed_iff (total_names : gmap pair_key route_info)
    (conn : connection) :
  well_keyed conn →
  well_keyed (modify_most_used_routes total_names true conn) ↔
  ∀ row, row ∈ most_used_routes conn → total_names !! route_key row = None.
Proof. apply insert_only_well_keyed. Qed.

Lemma insert_only_well_keyed_iff_witness :
  well_keyed (modify_most_used_routes scenario_total_names true scenario_conn) ↔
  ∀ row, row ∈ most_used_routes scenario_conn →
         scenario_total_names !! route_key row = None.
Proof.
  apply (insert_only_well_keyed_iff scenario_total_names scenario_conn).
  apply scenario_conn_well_keyed.
Defined.

(** ** main *)

Lemma main_unfold trip_fact trip_fact_stg tn1 tn2 :
  extract_from_trip_fact trip_fact = Some tn1 →
  extract_from_trip_fact trip_fact_stg = Some tn2 →
  main trip_fact trip_fact_stg =
  Some (modify_most_used_routes
          (reduceByKey_most_used_routes tn2
             (most_used_routes (modify_most_used_routes tn1 true (Connection [] 1 []))))
          false (modify_most_used_routes tn1 true (Connection [] 1 []))).
Proof. unfold main. intros -> ->. done. Qed.

Lemma first_load_well_keyed (tn : gmap pair_key route_info) :
  well_keyed (modify_most_used_routes tn true (Connection [] 1 [])).
Proof.
  apply insert_only_well_keyed.
  - split; [|split]; simpl; [constructor..|]. by intros row ?%elem_of_nil.
  - by intros row ?%elem_of_nil.
Qed.

(** X20.  [main], from the creation of [most_used_routes] on, never fails,
    and leaves a well-keyed table in which the count of every name pair is
    the number of trips of [trip_fact] plus the number of trips of
    [trip_fact_stg] between the two names (each batch resolving ids with its
    own id→name table), so that all counts together are the number of rows of
    both raw tables. *)
Theorem main_aggregates_both_batches (trip_fact trip_fact_stg : list trip_row) :
  ∃ conn,
    main trip_fact trip_fact_stg = Some conn ∧
    well_keyed conn ∧
    (∀ key,
       table_count key (most_used_routes conn) =
       trips_between (scan_rows trip_fact).2 key trip_fact +
       trips_between (scan_rows trip_fact_stg).2 key trip_fact_stg) ∧
    table_total (most_used_routes conn) =
      Z.of_nat (length trip_fact) + Z.of_nat (length trip_fact_stg).
Proof.
  destruct (extract_from_trip_fact_is_Some trip_fact) as [tn1 Htn1].
  destruct (extract_from_trip_fact_is_Some trip_fact_stg) as [tn2 Htn2].
  pose proof (extract_from_trip_fact_route_id _ _ Htn2) as Hfresh.
  pose proof (first_load_well_keyed tn1) as Hwf.
  destruct (insert_only_table tn1 (Connection [] 1 [])) as [Htable _].
  cbn [most_used_routes route_id_seq app] in Htable.
  eexists. split; [by apply main_unfold|]. split; [|split].
  - by apply merge_well_keyed.
  - intros key. destruct Hwf as (Hkeys & Hids & _).
    rewrite merge_table_count by done. rewrite Htable.
    rewrite table_count_rows_of_inserts, inserted_count_insert_all.
    destruct (extract_from_trip_fact_trips_of _ _ key Htn1) as [_ ->].
    by destruct (extract_from_trip_fact_trips_of _ _ key Htn2) as [_ ->].
  - rewrite merge_table_total by done. rewrite Htable, table_total_insert_all.
    by rewrite (extract_from_trip_fact_total _ _ Htn1),
      (extract_from_trip_fact_total _ _ Htn2).
Qed.

(** The scenario of the specification, followed by a second batch,
    run through [main]. *)
Example main_scenario :
  most_used_routes <$>
    main scenario_rows [ TripRow "1" "S1" "2" "S2"; TripRow "3" "S3" "1" "S1" ] =
  Some [ RouteRow 1 "S1" "S2" 3; RouteRow 2 "S2" "S1" 1; RouteRow 3 "S3" "S1" 1 ].
Proof. vm_compute. reflexivity. Qed.

(** ** Order of the persisted rows, and batches without reconciliation *)

(** X21.  The query of [reduceByKey_most_used_routes] has no ORDER BY.  For
    a table in which no name pair is repeated the reconciled mapping does not
    depend on the order in which the rows are fetched. *)
Theorem reconcile_ignores_row_order (total_names : gmap pair_key route_info)
    (persisted persisted' : list route_row) :
  NoDup (route_key <$> persisted) →
  persisted ≡ₚ persisted' →
  reduceByKey_most_used_routes total_names persisted =
  reduceByKey_most_used_routes total_names persisted'.
Proof.
  intros Hkeys Hperm.
  assert (Hkeys' : NoDup (route_key <$> persisted')) by by rewrite <- Hperm.
  apply map_eq. intros key. rewrite !reduceByKey_lookup.
  destruct (decide (key ∈ route_key <$> persisted)) as [Hkey|Hkey].
  - apply list_elem_of_fmap in Hkey as (row & -> & Hrow).
    rewrite (persisted_rows_of_unique persisted) by done.
    by rewrite (persisted_rows_of_unique persisted') by (by rewrite <- ?Hperm).
  - rewrite (persisted_rows_of_absent persisted) by done.
    by rewrite (persisted_rows_of_absent persisted') by (by rewrite <- Hperm).
Qed.

Lemma reconcile_ignores_row_order_witness :
  reduceByKey_most_used_routes scenario_total_names (most_used_routes scenario_conn) =
  reduceByKey_most_used_routes scenario_total_names
    (reverse (most_used_routes scenario_conn)).
Proof.
  apply reconcile_ignores_row_order.
  - apply scenario_conn_well_keyed.
  - symmetry. apply reverse_Permutation.
Defined.

Lemma plan_loop_unreconciled (items : list (pair_key * route_info)) :
  Forall (λ item, route_id item.2 = None) items →
  plan_loop items = (insert_all items, []).
Proof.
  intros Hitems. rewrite plan_loop_spec. unfold insert_all.
  induction Hitems as [|[key info] items Hitem _ IH]; [done|].
  csimpl in *. unfold insert_of at 1, update_of at 1. simpl. rewrite Hitem.
  by injection IH as -> ->.
Qed.

(** X22.  On a mapping that was not reconciled, as [extract_from_trip_fact]
    returns it, the planner does the same with [only_insert] false as with
    [only_insert] true: every key is inserted and nothing is updated. *)
Theorem unreconciled_merge_is_insert_only (rows : list trip_row)
    (total_names : gmap pair_key route_info) (conn : connection) :
  extract_from_trip_fact rows = Some total_names →
  modify_most_used_routes total_names false conn =
  modify_most_used_routes total_names true conn.
Proof.
  intros Htn. unfold modify_most_used_routes. rewrite plan_loop_unreconciled; [done|].
  apply Forall_forall. intros [key info] Hin%elem_of_map_to_list.
  by apply (extract_from_trip_fact_route_id _ _ Htn key).
Qed.

Lemma unreconciled_merge_is_insert_only_witness :
  modify_most_used_routes scenario_total_names false scenario_conn =
  modify_most_used_routes scenario_total_names true scenario_conn.
Proof.
  apply (unreconciled_merge_is_insert_only scenario_rows).
  vm_compute. reflexivity.
Defined.
